(** * Calendar Satisfaction Problem solver (csp_solver.py)

    A shallow embedding of the backtracking solver and of its two
    filtering passes, node consistency and arc consistency (AC-3),
    together with the properties the specification states about them.

    Conventions of the embedding.
    - A Python [set] is the duplicate-free list of its elements in
      iteration order; statements quantify over that list, hence over the
      iteration order of every set the caller passes.  Removing an element
      keeps the order of the others.
    - A Python exception is an explicit [Raise]; a loop whose number of
      iterations is not structurally bounded takes fuel and answers
      [OutOfFuel] when it runs dry.
    - [arcs.pop()] removes an arbitrary arc: the loop takes a schedule
      [nat -> nat] that picks the arc popped at every iteration.
    - [recursive_backtracker] nests one call per meeting.  The functions
      with fuel describe the run on a call stack that is deep enough;
      [recursive_backtracker_within] and [solve_within] take the number of
      nested calls for which the interpreter's recursion limit leaves room
      and raise RecursionError at the call that does not fit.
    - The functions come twice: on values, where a domain is the list of
      its dates, and on a store of set objects, where a domain is an
      address and pruning writes the store in place.  The second tells a
      copy from an alias; it is shown to agree with the first on domains
      that are distinct objects. *)

From stdpp Require Import base decidable numbers option list.

(** ** Exceptions and outcomes *)

Inductive exn := IndexError | KeyError | ValueError | RecursionError.

Inductive outcome (A : Type) :=
| Return (a : A)
| Raise (e : exn)
| OutOfFuel.

Arguments Return {A} a.
Arguments Raise {A} e.
Arguments OutOfFuel {A}.

#[global] Instance exn_eq_dec : EqDecision exn.
Proof. solve_decision. Defined.

#[global] Instance outcome_ret : MRet outcome := λ A a, Return a.

#[global] Instance outcome_bind : MBind outcome := λ A B f m,
  match m with
  | Return a => f a
  | Raise e => Raise e
  | OutOfFuel => OutOfFuel
  end.

(** [for x in xs: s = body(s, x)], stopping at the first exception. *)
Fixpoint foldM {A S : Type} (body : S → A → outcome S) (xs : list A) (s : S)
  : outcome S :=
  match xs with
  | [] => Return s
  | x :: xs' => s' ← body s x; foldM body xs' s'
  end.

(** ** Python containers *)

(** [l[i]] on a list: IndexError out of range. *)
Definition list_index {A : Type} (l : list A) (i : nat) : outcome A :=
  match l !! i with
  | Some x => Return x
  | None => Raise IndexError
  end.

(** [l.pop()] on a list: drops the last element, IndexError when empty. *)
Definition list_pop {A : Type} (l : list A) : outcome (list A) :=
  match l with
  | [] => Raise IndexError
  | _ => Return (removelast l)
  end.

(** [s.remove(x)] on a set: KeyError when [x] is absent. *)
Definition set_remove {A : Type} `{EqDecision A} (x : A) (s : list A)
  : outcome (list A) :=
  if decide (x ∈ s) then Return (filter (λ y, y ≠ x) s) else Raise KeyError.

(** [s.add(x)] on a set. *)
Definition set_add {A : Type} `{EqDecision A} (x : A) (s : list A) : list A :=
  if decide (x ∈ s) then s else s ++ [x].

(** [s.pop()] on a set: removes and returns an arbitrary element, the one at
    position [choice] (modulo the size); KeyError when empty. *)
Definition set_pop {A : Type} (choice : nat) (s : list A) : outcome (A * list A) :=
  let i := choice `mod` length s in
  match s !! i with
  | Some x => Return (x, delete i s)
  | None => Raise KeyError
  end.

(** The number of dates in a list of domains. *)
Definition domains_size {A : Type} (domains : list (list A)) : nat :=
  sum_list (length <$> domains).

(** ** The DateConstraint collaborator *)

(** Modelled from the spec: the module [date_constraints] that defines
    [DateConstraint] is not among the sources.  The class records the
    interface of section 6 of the specification: [arity() -> 1 | 2];
    [L_VAL], an index; [R_VAL], an index for a binary constraint (here
    [Some j]) and not an [int] for a unary one ([None]);
    [is_satisfied_by_values], called on one or two values;
    [is_satisfied_by_assignment(assignment)], which treats a variable index
    beyond the assignment's length as trivially satisfied and evaluates the
    check on the assigned values otherwise; [get_reverse()], the equivalent
    constraint with [L_VAL] and [R_VAL] swapped and the check's arguments
    swapped accordingly.  Constraints are compared with [==] when they are
    stored in sets. *)
Class DateConstraint (datetime C : Type) := {
  constraint_eq_dec :: EqDecision C;
  arity : C → nat;
  L_VAL : C → nat;
  R_VAL : C → option nat;
  is_satisfied_by_values : C → list datetime → bool;
  is_satisfied_by_assignment : C → list datetime → bool;
  get_reverse : C → C;
  arity_1_or_2 : ∀ c, arity c = 1 ∨ arity c = 2;
  R_VAL_int_iff_binary : ∀ c, is_Some (R_VAL c) ↔ arity c = 2;
  assignment_unary : ∀ c a, arity c = 1 →
    is_satisfied_by_assignment c a =
      match a !! L_VAL c with
      | Some d => is_satisfied_by_values c [d]
      | None => true
      end;
  assignment_binary : ∀ c r a, R_VAL c = Some r →
    is_satisfied_by_assignment c a =
      match a !! L_VAL c, a !! r with
      | Some x, Some y => is_satisfied_by_values c [x; y]
      | _, _ => true
      end;
  reverse_L_VAL : ∀ c r, R_VAL c = Some r → L_VAL (get_reverse c) = r;
  reverse_R_VAL : ∀ c r, R_VAL c = Some r →
    R_VAL (get_reverse c) = Some (L_VAL c);
  reverse_values : ∀ c r x y, R_VAL c = Some r →
    is_satisfied_by_values (get_reverse c) [x; y] =
    is_satisfied_by_values c [y; x];
}.

(** Addresses of set objects, and the store that maps an address to the
    set it holds. *)
Abbreviation address := nat (only parsing).

Abbreviation store datetime := (list (list datetime)) (only parsing).

Section Solver.

Context {datetime : Type} `{EqDecision datetime}.
Context {C : Type} `{DateConstraint datetime C}.

Implicit Types (c : C) (constraints : list C).
Implicit Types (date : datetime) (assignment : list datetime).
Implicit Types (domain : list datetime) (domains : list (list datetime)).

(** ** Backtracking search *)

(** The [for constraint in constraints] check of an assignment. *)
Definition all_satisfied constraints assignment : bool :=
  forallb (λ c, is_satisfied_by_assignment c assignment) constraints.

Definition is_complete {D : Type} assignment (domains : list D) constraints
  : bool :=
  if decide (length assignment = length domains)
  then all_satisfied constraints assignment
  else false.

(** The candidate loop of [recursive_backtracker]; [rec] is the recursive
    call.  The list [assignment] is shared and mutated in place, so each call
    answers with the state of that list and whether its result is not
    [None] (the result then is that same list). *)
Fixpoint try_dates (rec : list datetime → outcome (list datetime * bool))
    constraints (dates : list datetime) assignment
  : outcome (list datetime * bool) :=
  match dates with
  | [] => Return (assignment, false)
  | date :: dates' =>
      let assignment := assignment ++ [date] in
      if all_satisfied constraints assignment then
        '(assignment, found) ← rec assignment;
        if found : bool then Return (assignment, true)
        else
          assignment ← list_pop assignment;
          try_dates rec constraints dates' assignment
      else
        assignment ← list_pop assignment;
        try_dates rec constraints dates' assignment
  end.

Fixpoint recursive_backtracker (fuel : nat) assignment domains constraints
  : outcome (list datetime * bool) :=
  if is_complete assignment domains constraints then Return (assignment, true)
  else
    match fuel with
    | 0 => OutOfFuel
    | S fuel' =>
        let variable := length assignment in
        dates ← list_index domains variable;
        try_dates (λ a, recursive_backtracker fuel' a domains constraints)
          constraints dates assignment
    end.

(** ** Node consistency *)

(** The [for unary_constraint in unary_constraints] loop for one date. *)
Fixpoint prune_date (unary_constraints : list C) (index : nat) date domain
  : outcome (list datetime) :=
  match unary_constraints with
  | [] => Return domain
  | unary_constraint :: rest =>
      if bool_decide (L_VAL unary_constraint = index)
         && negb (is_satisfied_by_values unary_constraint [date])
      then set_remove date domain
      else prune_date rest index date domain
  end.

(** The [for domain in domains] loop, from position [index] on. *)
Fixpoint node_consistency_from (index : nat) (unary_constraints : list C)
    domains : outcome (list (list datetime)) :=
  match domains with
  | [] => Return []
  | domain :: rest =>
      let domain_copy := domain in
      domain' ← foldM (λ domain date,
                         prune_date unary_constraints index date domain)
                      domain_copy domain;
      rest' ← node_consistency_from (S index) unary_constraints rest;
      Return (domain' :: rest')
  end.

Definition node_consistency domains constraints
  : outcome (list (list datetime)) :=
  let unary_constraints :=
    foldl (λ acc c, if decide (arity c = 1) then set_add c acc else acc)
          [] constraints in
  node_consistency_from 0 unary_constraints domains.

(** ** Arc consistency *)

Record Arc := mkArc { CONSTRAINT : C; TAIL : nat; HEAD : nat }.

#[global] Instance Arc_eq_dec : EqDecision Arc.
Proof. solve_decision. Defined.

(** [Arc.__init__]. *)
Definition Arc_init c : outcome Arc :=
  match R_VAL c with
  | Some r => Return {| CONSTRAINT := c; TAIL := L_VAL c; HEAD := r |}
  | None => Raise ValueError
  end.

(** The body of the [for tail_date in tail_domains] loop; the state is the
    list of domains and the flag [removed]. *)
Definition check_tail_date (arc : Arc)
    (state : list (list datetime) * bool) (tail_date : datetime)
  : outcome (list (list datetime) * bool) :=
  let '(domains, removed) := state in
  head_domain ← list_index domains (HEAD arc);
  let consistent :=
    existsb (λ head_date,
               is_satisfied_by_values (CONSTRAINT arc) [tail_date; head_date])
            head_domain in
  if consistent then Return (domains, removed)
  else
    tail_domain ← list_index domains (TAIL arc);
    tail_domain' ← set_remove tail_date tail_domain;
    Return (<[TAIL arc := tail_domain']> domains, true).

Definition remove_inconsistent_values domains (arc : Arc)
  : outcome (list (list datetime) * bool) :=
  tail_domains ← list_index domains (TAIL arc);
  foldM (check_tail_date arc) tail_domains (domains, false).

(** The arcs built from the binary constraints, both directions. *)
Definition build_arcs constraints : outcome (list Arc) :=
  foldM (λ arcs c,
           if decide (arity c = 2) then
             forward ← Arc_init c;
             backward ← Arc_init (get_reverse c);
             Return (set_add backward (set_add forward arcs))
           else Return arcs)
        constraints [].

(** The [for original_arc in original_arcs] loop after a removal. *)
Definition requeue (original_arcs : list Arc) (arc : Arc) (arcs : list Arc)
  : list Arc :=
  foldl (λ arcs original_arc,
           if decide (HEAD original_arc = TAIL arc)
           then set_add original_arc arcs else arcs)
        arcs original_arcs.

(** The [while len(arcs) > 0] loop. *)
Fixpoint ac3_loop (fuel : nat) (sched : nat → nat) (original_arcs : list Arc)
    (arcs : list Arc) domains : outcome (list (list datetime)) :=
  if decide (0 < length arcs) then
    match fuel with
    | 0 => OutOfFuel
    | S fuel' =>
        '(arc, arcs) ← set_pop (sched 0) arcs;
        '(domains, removed) ← remove_inconsistent_values domains arc;
        let arcs := if removed : bool
                    then requeue original_arcs arc arcs else arcs in
        ac3_loop fuel' (sched ∘ S) original_arcs arcs domains
    end
  else Return domains.

(** Iterations that always suffice: every iteration either shrinks the
    worklist or removes a date and refills the worklist at most. *)
Definition ac3_fuel domains (original_arcs : list Arc) : nat :=
  domains_size domains * S (length original_arcs) + length original_arcs.

Definition arc_consistency (sched : nat → nat) domains constraints
  : outcome (list (list datetime)) :=
  arcs ← build_arcs constraints;
  let original_arcs := arcs in
  ac3_loop (ac3_fuel domains original_arcs) sched original_arcs arcs domains.

(** ** The solver *)

Definition solve (sched : nat → nat) (n_meetings : nat)
    (date_range : list datetime) constraints
  : outcome (option (list datetime)) :=
  let assignment := [] in
  let domains := (λ _, date_range) <$> seq 0 n_meetings in
  domains ← node_consistency domains constraints;
  domains ← arc_consistency sched domains constraints;
  '(assignment, found) ←
    recursive_backtracker (S (length domains)) assignment domains constraints;
  Return (if found : bool then Some assignment else None).

(** ** The solver under the recursion limit

    [limit] is the number of nested calls of [recursive_backtracker] for
    which the interpreter's recursion limit leaves room where [solve] is
    called, each with the calls it makes itself ([is_complete] and the
    methods of the constraints).  A call that does not fit raises
    RecursionError, which nothing catches. *)

Fixpoint recursive_backtracker_within (limit : nat) assignment domains
    constraints : outcome (list datetime * bool) :=
  match limit with
  | 0 => Raise RecursionError
  | S limit' =>
      if is_complete assignment domains constraints
      then Return (assignment, true)
      else
        let variable := length assignment in
        dates ← list_index domains variable;
        try_dates
          (λ a, recursive_backtracker_within limit' a domains constraints)
          constraints dates assignment
  end.

Definition solve_within (limit : nat) (sched : nat → nat) (n_meetings : nat)
    (date_range : list datetime) constraints
  : outcome (option (list datetime)) :=
  let assignment := [] in
  let domains := (λ _, date_range) <$> seq 0 n_meetings in
  domains ← node_consistency domains constraints;
  domains ← arc_consistency sched domains constraints;
  '(assignment, found) ←
    recursive_backtracker_within limit assignment domains constraints;
  Return (if found : bool then Some assignment else None).

(** ** The solver on the object store

    [solve] receives one set object, [date_range], and builds the domains
    as copies that the filtering passes mutate in place.  To tell a copy
    from an alias, the definitions of this part keep every set in a store,
    at an address; a variable of the program holds an address, and [domains]
    is a list of addresses.  Each function below is the function of the same
    name above, reading and writing sets through their addresses. *)

(** A computation that reads and writes the store and may raise. *)
Definition run (A : Type) : Type :=
  store datetime → outcome A * store datetime.

#[global] Instance run_ret : MRet run := λ A a σ, (Return a, σ).

#[global] Instance run_bind : MBind run := λ A B f m σ,
  match m σ with
  | (Return a, σ') => f a σ'
  | (Raise e, σ') => (Raise e, σ')
  | (OutOfFuel, σ') => (OutOfFuel, σ')
  end.

(** A computation that leaves the store alone. *)
Definition lift {A : Type} (o : outcome A) : run A := λ σ, (o, σ).

(** The set at an address (every address in use is allocated). *)
Definition set_at (σ : store datetime) (r : address) : list datetime :=
  default [] (σ !! r).

(** Reading a set: [list(s)], or one pass of [for x in s]. *)
Definition set_read (r : address) : run (list datetime) :=
  λ σ, (Return (set_at σ r), σ).

(** The sets of a list of addresses (used to size the fuel of a loop). *)
Definition read_all (domains : list address) : run (list (list datetime)) :=
  λ σ, (Return (set_at σ <$> domains), σ).

(** [s.copy()]: a new set object with the same elements. *)
Definition set_copy (r : address) : run address :=
  λ σ, (Return (length σ), σ ++ [set_at σ r]).

(** [s.remove(x)] on the set at [r]. *)
Definition set_remove_st (r : address) (x : datetime) : run unit :=
  λ σ, match set_remove x (set_at σ r) with
       | Return s' => (Return (), <[r := s']> σ)
       | Raise e => (Raise e, σ)
       | OutOfFuel => (OutOfFuel, σ)
       end.

(** [for x in xs: s = body(s, x)] on the store. *)
Fixpoint foldS {A S : Type} (body : S → A → run S) (xs : list A) (s : S)
  : run S :=
  match xs with
  | [] => mret s
  | x :: xs' => s' ← body s x; foldS body xs' s'
  end.

(** [[date_range.copy() for num in range(n_meetings)]]. *)
Fixpoint copy_domains (n_meetings : nat) (date_range : address)
  : run (list address) :=
  match n_meetings with
  | 0 => mret []
  | S n' =>
      domain ← set_copy date_range;
      rest ← copy_domains n' date_range;
      mret (domain :: rest)
  end.

Fixpoint prune_date_st (unary_constraints : list C) (index : nat) date
    (domain : address) : run unit :=
  match unary_constraints with
  | [] => mret ()
  | unary_constraint :: rest =>
      if bool_decide (L_VAL unary_constraint = index)
         && negb (is_satisfied_by_values unary_constraint [date])
      then set_remove_st domain date
      else prune_date_st rest index date domain
  end.

Fixpoint node_consistency_from_st (index : nat) (unary_constraints : list C)
    (domains : list address) : run unit :=
  match domains with
  | [] => mret ()
  | domain :: rest =>
      domain_copy ← set_read domain;
      _ ← foldS (λ _ date, prune_date_st unary_constraints index date domain)
                domain_copy ();
      node_consistency_from_st (S index) unary_constraints rest
  end.

Definition node_consistency_st (domains : list address) constraints
  : run unit :=
  let unary_constraints :=
    foldl (λ acc c, if decide (arity c = 1) then set_add c acc else acc)
          [] constraints in
  node_consistency_from_st 0 unary_constraints domains.

Definition check_tail_date_st (domains : list address) (arc : Arc)
    (removed : bool) (tail_date : datetime) : run bool :=
  head ← lift (list_index domains (HEAD arc));
  head_domain ← set_read head;
  let consistent :=
    existsb (λ head_date,
               is_satisfied_by_values (CONSTRAINT arc) [tail_date; head_date])
            head_domain in
  if consistent then mret removed
  else
    tail ← lift (list_index domains (TAIL arc));
    _ ← set_remove_st tail tail_date;
    mret true.

(** [tail_domains], the copy that is iterated, is read once and never
    written. *)
Definition remove_inconsistent_values_st (domains : list address) (arc : Arc)
  : run bool :=
  tail ← lift (list_index domains (TAIL arc));
  tail_domains ← set_read tail;
  foldS (check_tail_date_st domains arc) tail_domains false.

Fixpoint ac3_loop_st (fuel : nat) (sched : nat → nat)
    (original_arcs arcs : list Arc) (domains : list address) : run unit :=
  if decide (0 < length arcs) then
    match fuel with
    | 0 => lift OutOfFuel
    | S fuel' =>
        '(arc, arcs) ← lift (set_pop (sched 0) arcs);
        removed ← remove_inconsistent_values_st domains arc;
        let arcs := if removed : bool
                    then requeue original_arcs arc arcs else arcs in
        ac3_loop_st fuel' (sched ∘ S) original_arcs arcs domains
    end
  else mret ().

Definition arc_consistency_st (sched : nat → nat) (domains : list address)
    constraints : run unit :=
  arcs ← lift (build_arcs constraints);
  let original_arcs := arcs in
  sets ← read_all domains;
  ac3_loop_st (ac3_fuel sets original_arcs) sched original_arcs arcs domains.

Fixpoint try_dates_st (rec : list datetime → run (list datetime * bool))
    constraints (dates : list datetime) assignment
  : run (list datetime * bool) :=
  match dates with
  | [] => mret (assignment, false)
  | date :: dates' =>
      let assignment := assignment ++ [date] in
      if all_satisfied constraints assignment then
        '(assignment, found) ← rec assignment;
        if found : bool then mret (assignment, true)
        else
          assignment ← lift (list_pop assignment);
          try_dates_st rec constraints dates' assignment
      else
        assignment ← lift (list_pop assignment);
        try_dates_st rec constraints dates' assignment
  end.

Fixpoint recursive_backtracker_st (fuel : nat) assignment
    (domains : list address) constraints : run (list datetime * bool) :=
  if is_complete assignment domains constraints then mret (assignment, true)
  else
    match fuel with
    | 0 => lift OutOfFuel
    | S fuel' =>
        let variable := length assignment in
        domain ← lift (list_index domains variable);
        dates ← set_read domain;
        try_dates_st
          (λ a, recursive_backtracker_st fuel' a domains constraints)
          constraints dates assignment
    end.

Definition solve_st (sched : nat → nat) (n_meetings : nat)
    (date_range : address) constraints : run (option (list datetime)) :=
  let assignment := [] in
  domains ← copy_domains n_meetings date_range;
  _ ← node_consistency_st domains constraints;
  _ ← arc_consistency_st sched domains constraints;
  '(assignment, found) ←
    recursive_backtracker_st (S (length domains)) assignment domains
      constraints;
  mret (if found : bool then Some assignment else None).

End Solver.

(** ** A sample implementation of the interface *)

(** Modelled from the spec: comparison constraints [L_VAL OP R_VAL] such as
    the "meeting 0 before meeting 1" and "meeting 0 is not Jan 1" of the
    specification's scenarios, over dates numbered by the integers.  The
    right-hand side is a meeting index (binary) or a date (unary). *)
Module Sample.

Inductive comparator := EQ | NE | LT | LE | GT | GE.

Inductive operand := Meeting (j : nat) | Date (d : Z).

Record comparison := Cmp { lhs : nat; op : comparator; rhs : operand }.

#[global] Instance comparator_eq_dec : EqDecision comparator.
Proof. solve_decision. Defined.

#[global] Instance operand_eq_dec : EqDecision operand.
Proof. solve_decision. Defined.

#[global] Instance comparison_eq_dec : EqDecision comparison.
Proof. solve_decision. Defined.

Definition compare_dates (o : comparator) (x y : Z) : bool :=
  match o with
  | EQ => bool_decide (x = y)
  | NE => bool_decide (x ≠ y)
  | LT => bool_decide (x < y)%Z
  | LE => bool_decide (x ≤ y)%Z
  | GT => bool_decide (y < x)%Z
  | GE => bool_decide (y ≤ x)%Z
  end.

Definition mirror (o : comparator) : comparator :=
  match o with
  | EQ => EQ | NE => NE | LT => GT | LE => GE | GT => LT | GE => LE
  end.

Definition cmp_arity (c : comparison) : nat :=
  match rhs c with Meeting _ => 2 | Date _ => 1 end.

Definition cmp_R_VAL (c : comparison) : option nat :=
  match rhs c with Meeting j => Some j | Date _ => None end.

Definition cmp_values (c : comparison) (values : list Z) : bool :=
  match rhs c, values with
  | Date d, [x] => compare_dates (op c) x d
  | Meeting _, [x; y] => compare_dates (op c) x y
  | _, _ => false
  end.

Definition cmp_assignment (c : comparison) (assignment : list Z) : bool :=
  match rhs c with
  | Date d =>
      match assignment !! lhs c with
      | Some x => compare_dates (op c) x d
      | None => true
      end
  | Meeting j =>
      match assignment !! lhs c, assignment !! j with
      | Some x, Some y => compare_dates (op c) x y
      | _, _ => true
      end
  end.

Definition cmp_reverse (c : comparison) : comparison :=
  match rhs c with
  | Meeting j => {| lhs := j; op := mirror (op c); rhs := Meeting (lhs c) |}
  | Date _ => c
  end.

#[global, refine] Instance comparison_constraint : DateConstraint Z comparison := {|
  constraint_eq_dec := comparison_eq_dec;
  arity := cmp_arity;
  L_VAL := lhs;
  R_VAL := cmp_R_VAL;
  is_satisfied_by_values := cmp_values;
  is_satisfied_by_assignment := cmp_assignment;
  get_reverse := cmp_reverse;
|}.
Proof.
  - intros [l o [j|d]]; cbv; auto.
  - intros [l o [j|d]]; unfold cmp_arity, cmp_R_VAL; simpl;
      split; first [done | by eauto | by intros [? ?]].
  - intros [l o [j|d]] a; unfold cmp_arity, cmp_assignment, cmp_values; simpl;
      [done|]. intros _. by destruct (a !! l).
  - intros [l o [j|d]] r a; unfold cmp_R_VAL, cmp_assignment, cmp_values; simpl;
      [|done]. intros [= <-]. destruct (a !! l); [|done]. by destruct (a !! j).
  - intros [l o [j|d]] r; unfold cmp_R_VAL, cmp_reverse; simpl; congruence.
  - intros [l o [j|d]] r; unfold cmp_R_VAL, cmp_reverse; simpl; congruence.
  - intros [l o [j|d]] r x y; unfold cmp_R_VAL, cmp_reverse, cmp_values; simpl;
      [|done]. intros _.
    destruct o; simpl; try reflexivity;
      apply bool_decide_ext; intuition congruence.
Defined.

(** The schedule that always pops the first arc. *)
Definition first_arc : nat → nat := λ _, 0.

End Sample.

(** * Specification *)

(** The computation did not run out of fuel. *)
Definition terminated {A : Type} (o : outcome A) : Prop :=
  match o with
  | OutOfFuel => False
  | _ => True
  end.

Section Specification.

Context {datetime : Type} `{EqDecision datetime}.
Context {C : Type} `{DateConstraint datetime C}.

Implicit Types (c : C) (constraints : list C).
Implicit Types (date : datetime) (assignment sol : list datetime).
Implicit Types (domain : list datetime) (domains : list (list datetime)).
Implicit Types (arc : @Arc C) (arcs original_arcs : list (@Arc C)).

(** Some constraint of the list is about variable [index] and fails on
    [date]. *)
Definition violates (unary_constraints : list C) (index : nat) date : bool :=
  existsb (λ uc, bool_decide (L_VAL uc = index)
                 && negb (is_satisfied_by_values uc [date]))
          unary_constraints.

(** Every unary constraint on variable [index] holds of [date]. *)
Definition unary_ok constraints (index : nat) date : Prop :=
  ∀ c, c ∈ constraints → arity c = 1 → L_VAL c = index →
       is_satisfied_by_values c [date] = true.

(** The set [unary_constraints] that [node_consistency] builds. *)
Definition unary_of constraints : list C :=
  foldl (λ acc c, if decide (arity c = 1) then set_add c acc else acc)
        [] constraints.

(** Some date of [head] satisfies the constraint together with [v]. *)
Definition supported c (v : datetime) (head : list datetime) : bool :=
  existsb (λ w, is_satisfied_by_values c [v; w]) head.

(** Every date of the tail domain of [arc] has a support in its head
    domain. *)
Definition arc_supported domains arc : Prop :=
  ∃ tail, domains !! TAIL arc = Some tail ∧
    ∀ v, v ∈ tail →
      ∃ head, domains !! HEAD arc = Some head ∧
              supported (CONSTRAINT arc) v head = true.

(** [domains'] is [domains] with dates removed, order kept. *)
Definition shrinks (domains' domains : list (list datetime)) : Prop :=
  Forall2 sublist domains' domains.

(** The two arcs of a binary constraint of the list. *)
Definition is_arc_of constraints arc : Prop :=
  ∃ c r, c ∈ constraints ∧ arity c = 2 ∧ R_VAL c = Some r ∧
    (arc = mkArc c (L_VAL c) r ∨ arc = mkArc (get_reverse c) r (L_VAL c)).

(** The domains have no duplicate and cover the variables of the arcs. *)
Definition well_formed original_arcs domains : Prop :=
  Forall NoDup domains ∧
  ∀ arc, arc ∈ original_arcs →
    TAIL arc < length domains ∧ HEAD arc < length domains.

(** Dates of the tail domain of variable [t] all have a partner in the
    domain of variable [h]. *)
Definition supports domains (t h : nat) (check : datetime → datetime → bool)
  : Prop :=
  ∃ tail head, domains !! t = Some tail ∧ domains !! h = Some head ∧
    ∀ v, v ∈ tail → ∃ w, w ∈ head ∧ check v w = true.

(** Arc consistency of the domains: every binary constraint is supported
    from left to right, and its reverse from right to left. *)
Definition arc_consistent domains constraints : Prop :=
  ∀ c r, c ∈ constraints → arity c = 2 → R_VAL c = Some r →
    supports domains (L_VAL c) r
      (λ v w, is_satisfied_by_values c [v; w])
    ∧ supports domains r (L_VAL c)
      (λ v w, is_satisfied_by_values (get_reverse c) [v; w]).

(** The arcs of constraints whose variables are below [n]. *)
Definition constraints_in_range (n : nat) constraints : Prop :=
  ∀ c r, c ∈ constraints → R_VAL c = Some r → L_VAL c < n ∧ r < n.

(** Every date of the assignment is still in the domain of its variable. *)
Definition holds_solution assignment domains : Prop :=
  ∀ i v, assignment !! i = Some v →
    ∃ domain, domains !! i = Some domain ∧ v ∈ domain.

(** The dates a solution gives to the two ends of the arc satisfy it. *)
Definition arc_holds sol arc : Prop :=
  ∀ v w, sol !! TAIL arc = Some v → sol !! HEAD arc = Some w →
         is_satisfied_by_values (CONSTRAINT arc) [v; w] = true.

(** Every domain of [e] holds dates of the domain of the same variable in
    [d] only. *)
Definition within (e d : list (list datetime)) : Prop :=
  length e = length d
  ∧ ∀ i ei v, e !! i = Some ei → v ∈ ei →
      ∃ di, d !! i = Some di ∧ v ∈ di.

(** In the iteration order of [dates], [x] is tried and [y] only comes
    later. *)
Definition tried_first (dates : list datetime) (x y : datetime) : Prop :=
  ∃ l1 l2, dates = l1 ++ x :: l2 ∧ (y ∉ l1) ∧ y ∈ l2.

End Specification.

Section StoreSpecification.

Context {datetime : Type} `{EqDecision datetime}.

Implicit Types (σ : store datetime) (domains : list address).

(** The sets that the addresses of [domains] hold. *)
Definition contents σ domains : list (list datetime) := set_at σ <$> domains.

(** The addresses of [domains] are distinct objects of the store. *)
Definition allocated domains σ : Prop :=
  NoDup domains ∧ ∀ r, r ∈ domains → r < length σ.

(** The run [res] from store [σ] did what the value-level outcome [pure]
    says, to the sets of [domains] and to nothing else. *)
Definition simulates {X : Type} domains σ (res : outcome X * store datetime)
    (pure : outcome (list (list datetime) * X)) : Prop :=
  length res.2 = length σ
  ∧ (∀ r, r ∉ domains → res.2 !! r = σ !! r)
  ∧ match pure with
    | Return (ds', x) => res.1 = Return x ∧ contents res.2 domains = ds'
    | Raise e => res.1 = Raise e
    | OutOfFuel => res.1 = OutOfFuel
    end.

(** The computation [m] on the sets of [domains] is the value-level
    function [p] on their contents. *)
Definition agrees {X : Type} domains (m : @run datetime X)
    (p : list (list datetime) → outcome (list (list datetime) * X)) : Prop :=
  ∀ σ, allocated domains σ → simulates domains σ (m σ) (p (contents σ domains)).

(** The run [res] from [σ] wrote the set at [r] only, as [pure] says. *)
Definition cell_simulates (r : address) σ (res : outcome () * store datetime)
    (pure : outcome (list datetime)) : Prop :=
  ∃ s, res.2 = <[r:=s]> σ
    ∧ match pure with
      | Return d' => res.1 = Return () ∧ s = d'
      | Raise e => res.1 = Raise e
      | OutOfFuel => res.1 = OutOfFuel
      end.

End StoreSpecification.

(** * Properties *)

(** ** Outcomes and loops *)

Lemma bind_Return {A B : Type} (m : outcome A) (f : A → outcome B) (b : B) :
  m ≫= f = Return b → ∃ a, m = Return a ∧ f a = Return b.
Proof. destruct m as [a| |]; simpl; [eauto | done | done]. Qed.

Lemma bind_of_Return {A B : Type} (a : A) (f : A → outcome B) :
  Return a ≫= f = f a.
Proof. reflexivity. Qed.

(** A loop invariant indexed by the elements already visited. *)
Lemma foldM_invariant_from {A S : Type} (body : S → A → outcome S)
    (P : list A → S → Prop) (pre xs : list A) (s s' : S) :
  P pre s →
  (∀ p x q s s1, pre ++ xs = p ++ x :: q →
     P p s → body s x = Return s1 → P (p ++ [x]) s1) →
  foldM body xs s = Return s' →
  P (pre ++ xs) s'.
Proof.
  revert pre s. induction xs as [|x xs IH]; intros pre s HP Hstep Hrun.
  - simpl in Hrun. injection Hrun as <-. by rewrite app_nil_r.
  - simpl in Hrun. apply bind_Return in Hrun as (s1 & Hbody & Hrun).
    replace (pre ++ x :: xs) with ((pre ++ [x]) ++ xs)
      by (by rewrite <- app_assoc).
    apply (IH (pre ++ [x]) s1); [ by eapply (Hstep pre x xs) | | done].
    intros p y q t t1 Heq. apply (Hstep p y q).
    by rewrite <- Heq, <- app_assoc.
Qed.

Lemma foldM_invariant {A S : Type} (body : S → A → outcome S)
    (P : list A → S → Prop) (xs : list A) (s s' : S) :
  P [] s →
  (∀ p x q s s1, xs = p ++ x :: q →
     P p s → body s x = Return s1 → P (p ++ [x]) s1) →
  foldM body xs s = Return s' →
  P xs s'.
Proof. intros. by apply (foldM_invariant_from body P [] xs s s'). Qed.

(** ** Sets *)

Lemma set_remove_Return {A : Type} `{EqDecision A} (x : A) (s s' : list A) :
  set_remove x s = Return s' → x ∈ s ∧ s' = filter (λ y, y ≠ x) s.
Proof. unfold set_remove. case_decide; [|done]. by intros [= <-]. Qed.

Lemma set_remove_elem {A : Type} `{EqDecision A} (x : A) (s : list A) :
  x ∈ s → set_remove x s = Return (filter (λ y, y ≠ x) s).
Proof. intros. unfold set_remove. by case_decide. Qed.

Lemma filter_ne_shorter {A : Type} `{EqDecision A} (x : A) (s : list A) :
  x ∈ s → length (filter (λ y, y ≠ x) s) < length s.
Proof.
  induction 1 as [x s|x y s Hin IH].
  - rewrite filter_cons_False by naive_solver. simpl.
    pose proof (length_filter (λ y, y ≠ x) s). lia.
  - destruct (decide (y ≠ x)).
    + rewrite filter_cons_True by done. simpl. lia.
    + rewrite filter_cons_False by done. simpl. lia.
Qed.

Lemma set_add_elem {A : Type} `{EqDecision A} (x y : A) (s : list A) :
  y ∈ set_add x s ↔ y = x ∨ y ∈ s.
Proof.
  unfold set_add. case_decide.
  - split; [by right | by intros [->|?]].
  - rewrite elem_of_app, list_elem_of_singleton. tauto.
Qed.

Lemma set_add_NoDup {A : Type} `{EqDecision A} (x : A) (s : list A) :
  NoDup s → NoDup (set_add x s).
Proof.
  intros Hs. unfold set_add. case_decide; [done|].
  apply NoDup_app. split_and!; [done| |apply NoDup_singleton].
  intros y Hy ->%list_elem_of_singleton. done.
Qed.

Lemma set_pop_Return {A : Type} (choice : nat) (s s' : list A) (x : A) :
  set_pop choice s = Return (x, s') →
  ∃ i, s !! i = Some x ∧ s' = delete i s.
Proof.
  unfold set_pop. destruct (s !! _) eqn:E; [|done].
  intros [= <- <-]. eauto.
Qed.

Lemma set_pop_nonempty {A : Type} (choice : nat) (s : list A) :
  0 < length s → ∃ x s', set_pop choice s = Return (x, s').
Proof.
  intros Hlen. unfold set_pop.
  destruct (lookup_lt_is_Some_2 s (choice `mod` length s)) as [x ->];
    [apply Nat.mod_upper_bound; lia | eauto].
Qed.

Lemma filter_all {A : Type} (P : A → Prop) `{∀ x, Decision (P x)} (l : list A) :
  (∀ x, x ∈ l → P x) → filter P l = l.
Proof.
  induction l as [|x l IH]; intros HP; [done|].
  rewrite filter_cons_True by (apply HP; left).
  f_equal. apply IH. intros y Hy. apply HP. by right.
Qed.

Lemma filter_ext_elem {A : Type} (P Q : A → Prop)
    `{∀ x, Decision (P x)} `{∀ x, Decision (Q x)} (l : list A) :
  (∀ x, x ∈ l → P x ↔ Q x) → filter P l = filter Q l.
Proof.
  induction l as [|x l IH]; intros HPQ; [done|].
  assert (filter P l = filter Q l) as IH'
    by (apply IH; intros y Hy; apply HPQ; by right).
  destruct (decide (P x)) as [HP|HP].
  - rewrite !filter_cons_True; [by f_equal | by apply HPQ; [left|] | done].
  - rewrite !filter_cons_False; [done | | done].
    intros HQ. apply HP, HPQ; [left | done].
Qed.

(** ** Node consistency *)

Section NodeConsistency.

Context {datetime : Type} `{EqDecision datetime}.
Context {C : Type} `{DateConstraint datetime C}.

Implicit Types (c : C) (constraints : list C).
Implicit Types (date : datetime) (assignment : list datetime).
Implicit Types (domain : list datetime) (domains : list (list datetime)).

Lemma unary_of_elem_from constraints (acc : list C) c :
  c ∈ foldl (λ acc c, if decide (arity c = 1) then set_add c acc else acc)
            acc constraints
  ↔ c ∈ acc ∨ (c ∈ constraints ∧ arity c = 1).
Proof.
  revert acc. induction constraints as [|c' cs IH]; intros acc; simpl.
  - rewrite elem_of_nil. tauto.
  - rewrite IH, elem_of_cons. case_decide.
    + rewrite set_add_elem. split.
      * intros [[->|?]|[? ?]]; auto.
      * intros [?|[[->|?] ?]]; auto.
    + split; [tauto|]. intros [?|[[->|?] ?]]; auto. done.
Qed.

Lemma unary_of_elem constraints c :
  c ∈ unary_of constraints ↔ c ∈ constraints ∧ arity c = 1.
Proof.
  unfold unary_of. rewrite unary_of_elem_from, elem_of_nil. tauto.
Qed.

Lemma violates_false ucs index date :
  violates ucs index date = false ↔
  ∀ c, c ∈ ucs → L_VAL c = index → is_satisfied_by_values c [date] = true.
Proof.
  unfold violates. induction ucs as [|uc ucs IH]; simpl.
  - split; [|done]. intros _ c Hc. by apply elem_of_nil in Hc.
  - rewrite orb_false_iff, IH, andb_false_iff, bool_decide_eq_false,
      negb_false_iff.
    split.
    + intros [Huc Hrest] c [->|Hc]%elem_of_cons Hl; [|by apply Hrest].
      by destruct Huc.
    + intros Hall. split.
      * destruct (decide (L_VAL uc = index)); [right|by left].
        apply Hall; [left | done].
      * intros c Hc. apply Hall. by right.
Qed.

Lemma violates_unary_ok constraints index date :
  violates (unary_of constraints) index date = false ↔
  unary_ok constraints index date.
Proof.
  rewrite violates_false. unfold unary_ok.
  split; intros Hall c.
  - intros Hc Har. apply Hall. by apply unary_of_elem.
  - intros [Hc Har]%unary_of_elem. by apply Hall.
Qed.

Lemma prune_date_spec ucs index date domain :
  prune_date ucs index date domain =
  if violates ucs index date then set_remove date domain else Return domain.
Proof.
  unfold violates. induction ucs as [|uc ucs IH]; simpl; [done|].
  by destruct (bool_decide _ && negb _).
Qed.

(** The loop over the copy [l] of a domain removes from the live domain [d]
    the dates of [l] that violate a constraint, and nothing else. *)
Lemma prune_fold_Return ucs index l d d' :
  foldM (λ domain date, prune_date ucs index date domain) l d = Return d' →
  d' = filter (λ v, ¬ (v ∈ l ∧ violates ucs index v = true)) d.
Proof.
  revert d d'. induction l as [|x l IH]; intros d d'; simpl.
  - intros [= <-]. symmetry. apply filter_all.
    intros v _ [Hv _]. by apply elem_of_nil in Hv.
  - intros (d1 & Hx & Hrun)%bind_Return. apply IH in Hrun as ->.
    rewrite prune_date_spec in Hx.
    destruct (violates ucs index x) eqn:Hviol.
    + apply set_remove_Return in Hx as [_ ->].
      rewrite list_filter_filter. apply list_filter_iff. intros v.
      rewrite elem_of_cons. split.
      * intros [Hl Hne] [[->|Hv] Hvv]; [done|]. by apply Hl.
      * intros Hn. split.
        -- intros [Hv Hvv]. apply Hn. auto.
        -- intros ->. apply Hn. auto.
    + injection Hx as <-. apply list_filter_iff. intros v.
      rewrite elem_of_cons. split.
      * intros Hl [[->|Hv] Hvv]; [congruence|]. by apply Hl.
      * intros Hn [Hv Hvv]. apply Hn; auto.
Qed.

(** On a set the loop never raises: a date is removed at most once. *)
Lemma prune_fold_total ucs index l d :
  NoDup l → (∀ v, v ∈ l → v ∈ d) →
  ∃ d', foldM (λ domain date, prune_date ucs index date domain) l d
        = Return d'.
Proof.
  revert d. induction l as [|x l IH]; intros d Hnd Hsub; simpl; [eauto|].
  apply NoDup_cons in Hnd as [Hx Hnd].
  rewrite prune_date_spec. destruct (violates ucs index x).
  - rewrite set_remove_elem by (apply Hsub; left). simpl.
    apply IH; [done|]. intros v Hv. apply list_elem_of_filter.
    split; [by intros -> | apply Hsub; by right].
  - simpl. apply IH; [done|]. intros v Hv. apply Hsub. by right.
Qed.

Lemma node_consistency_from_Return index ucs domains domains' :
  node_consistency_from index ucs domains = Return domains' →
  domains' =
    imap (λ i domain, filter (λ v, violates ucs (index + i) v = false) domain)
         domains.
Proof.
  revert index domains'.
  induction domains as [|d ds IH]; intros index domains'; simpl.
  - by intros [= <-].
  - intros (d' & Hd & Hrun)%bind_Return.
    apply bind_Return in Hrun as (ds' & Hds & [= <-]).
    apply prune_fold_Return in Hd as ->. apply IH in Hds as ->.
    f_equal.
    + rewrite Nat.add_0_r. apply filter_ext_elem. intros v Hv.
      destruct (violates ucs index v); split; try done.
      * intros Hn. exfalso. by apply Hn.
      * by intros _ [_ ?].
    + apply imap_ext. intros i x _. simpl.
      apply filter_ext_elem. intros v Hv. by rewrite Nat.add_succ_r.
Qed.

Lemma node_consistency_from_total index ucs domains :
  Forall NoDup domains →
  ∃ domains', node_consistency_from index ucs domains = Return domains'.
Proof.
  intros Hnd. revert index.
  induction Hnd as [|d ds Hd Hds IH]; intros index; simpl; [eauto|].
  destruct (prune_fold_total ucs index d d Hd) as [d' ->]; [done|].
  destruct (IH (S index)) as [ds' ->]. simpl. eauto.
Qed.

Lemma node_consistency_Return domains constraints domains' :
  node_consistency domains constraints = Return domains' →
  domains' =
    imap (λ i domain,
            filter (λ v, violates (unary_of constraints) i v = false) domain)
         domains.
Proof. apply node_consistency_from_Return. Qed.

End NodeConsistency.

(** ** Revising one arc *)

Lemma foldM_terminated {A S : Type} (body : S → A → outcome S)
    (xs : list A) (s : S) :
  (∀ s x, terminated (body s x)) → terminated (foldM body xs s).
Proof.
  intros Hbody. revert s. induction xs as [|x xs IH]; intros s; simpl; [done|].
  specialize (Hbody s x). destruct (body s x); simpl; [apply IH|done..].
Qed.


Lemma list_index_Return {A : Type} (l : list A) (i : nat) (x : A) :
  list_index l i = Return x ↔ l !! i = Some x.
Proof.
  unfold list_index. destruct (l !! i); split; intros; simplify_eq; done.
Qed.

Lemma domains_size_cons {A : Type} (x : list A) (l : list (list A)) :
  domains_size (x :: l) = length x + domains_size l.
Proof. reflexivity. Qed.

Lemma sum_lengths_insert {A : Type} (l : list (list A)) (i : nat)
    (old new : list A) :
  l !! i = Some old →
  domains_size (<[i:=new]> l) + length old = domains_size l + length new.
Proof.
  revert i. induction l as [|x l IH]; intros [|i] Hi; try done.
  - simpl in Hi. injection Hi as ->.
    change (<[0:=new]> (old :: l)) with (new :: l).
    rewrite !domains_size_cons. lia.
  - simpl in Hi. specialize (IH i Hi).
    change (<[S i:=new]> (x :: l)) with (x :: <[i:=new]> l).
    rewrite !domains_size_cons. lia.
Qed.

Section Revise.

Context {datetime : Type} `{EqDecision datetime}.
Context {C : Type} `{DateConstraint datetime C}.

Implicit Types (c : C) (constraints : list C).
Implicit Types (date : datetime) (assignment : list datetime).
Implicit Types (domain : list datetime) (domains : list (list datetime)).
Implicit Types (arc : @Arc C) (d : list (list datetime)).
Implicit Types (tail head : list datetime) (v : datetime).

Lemma shrinks_refl domains : shrinks domains domains.
Proof. apply Forall2_same_length_lookup_2; [done|]. by intros i x y -> [= ->]. Qed.

Lemma shrinks_trans (d1 d2 d3 : list (list datetime)) :
  shrinks d1 d2 → shrinks d2 d3 → shrinks d1 d3.
Proof.
  unfold shrinks. intros H12 H23. eapply Forall2_trans; [|done..].
  intros x y z Hxy Hyz. by trans y.
Qed.

Lemma shrinks_lookup d' d i x' :
  shrinks d' d → d' !! i = Some x' →
  ∃ x, d !! i = Some x ∧ x' `sublist_of` x.
Proof. intros Hs Hi. by eapply Forall2_lookup_l. Qed.

Lemma shrinks_NoDup d' d : shrinks d' d → Forall NoDup d → Forall NoDup d'.
Proof.
  intros Hs. induction Hs as [|x' x d' d Hx Hs IH];
    [done|]. intros [Hnd Hd]%Forall_cons. constructor; [|by apply IH].
  by eapply sublist_NoDup.
Qed.

Lemma shrinks_sum d' d :
  shrinks d' d → domains_size d' ≤ domains_size d.
Proof.
  induction 1 as [|x' x d' d Hx Hs IH]; [done|].
  apply sublist_length in Hx. rewrite !domains_size_cons. lia.
Qed.

Lemma shrinks_remove d i tail v :
  d !! i = Some tail →
  shrinks (<[i := filter (λ y, y ≠ v) tail]> d) d.
Proof.
  intros Hi. unfold shrinks.
  rewrite <- (list_insert_id d i tail) at 2 by done.
  apply Forall2_insert; [apply shrinks_refl | apply sublist_filter].
Qed.

(** One iteration of the loop: the date is kept when it has a support,
    and removed from the tail domain otherwise. *)
Lemma check_tail_date_Return arc domains removed v domains' removed' :
  check_tail_date arc (domains, removed) v = Return (domains', removed') →
  ∃ head, domains !! HEAD arc = Some head ∧
    ((supported (CONSTRAINT arc) v head = true
      ∧ domains' = domains ∧ removed' = removed)
     ∨ (supported (CONSTRAINT arc) v head = false
        ∧ ∃ tail, domains !! TAIL arc = Some tail ∧ v ∈ tail
            ∧ domains' = <[TAIL arc := filter (λ y, y ≠ v) tail]> domains
            ∧ removed' = true)).
Proof.
  unfold check_tail_date.
  intros (head & Hhead%list_index_Return & Hrun)%bind_Return.
  exists head. split; [done|]. fold (supported (CONSTRAINT arc) v head) in Hrun.
  destruct (supported (CONSTRAINT arc) v head).
  - left. by injection Hrun as <- <-.
  - right. split; [done|].
    apply bind_Return in Hrun as (tail & Htail%list_index_Return & Hrun).
    apply bind_Return in Hrun as (tail' & [Hv ->]%set_remove_Return & Hrun).
    injection Hrun as <- <-. eauto.
Qed.

(** Any property of the domains that survives the removal of an unsupported
    date survives the revision of an arc. *)
Lemma remove_inconsistent_values_preserves
    (Q : list (list datetime) → Prop) arc domains domains' removed :
  Q domains →
  (∀ d tail head v,
     Q d → d !! TAIL arc = Some tail → d !! HEAD arc = Some head →
     v ∈ tail → supported (CONSTRAINT arc) v head = false →
     Q (<[TAIL arc := filter (λ y, y ≠ v) tail]> d)) →
  remove_inconsistent_values domains arc = Return (domains', removed) →
  Q domains'.
Proof.
  intros HQ Hstep. unfold remove_inconsistent_values.
  intros (tail0 & _ & Hrun)%bind_Return.
  apply (foldM_invariant _ (λ _ s, Q s.1)) in Hrun; [done..|].
  intros p x q [d r] [d1 r1] _ HQd Hbody. simpl in *.
  apply check_tail_date_Return in Hbody
    as (head & Hh & [(_ & -> & _)|(Hsup & tail & Ht & Hv & -> & _)]);
    [done|]. by eapply Hstep.
Qed.

Lemma remove_inconsistent_values_shrinks arc domains domains' removed :
  remove_inconsistent_values domains arc = Return (domains', removed) →
  shrinks domains' domains.
Proof.
  apply (remove_inconsistent_values_preserves (λ d, shrinks d domains)).
  - apply shrinks_refl.
  - intros d tail head v Hd Ht _ _ _.
    eapply shrinks_trans; [by apply shrinks_remove | done].
Qed.

Lemma remove_inconsistent_values_frame arc domains domains' removed j :
  remove_inconsistent_values domains arc = Return (domains', removed) →
  j ≠ TAIL arc → domains' !! j = domains !! j.
Proof.
  intros Hrun Hj. revert Hrun.
  apply (remove_inconsistent_values_preserves (λ d, d !! j = domains !! j));
    [done|].
  intros d tail head v Hd _ _ _ _. by rewrite list_lookup_insert_ne.
Qed.

(** What the flag [removed] tells: nothing changed and the arc is
    supported, or the domains lost a date. *)
Lemma remove_inconsistent_values_flag arc domains domains' removed :
  remove_inconsistent_values domains arc = Return (domains', removed) →
  (removed = false → domains' = domains)
  ∧ (removed = true → domains_size domains' < domains_size domains)
  ∧ (removed = false ∨ TAIL arc ≠ HEAD arc → arc_supported domains' arc).
Proof.
  unfold remove_inconsistent_values.
  intros (tail0 & Ht0%list_index_Return & Hrun)%bind_Return.
  apply (foldM_invariant _ (λ pre s,
    (s.2 = false → s.1 = domains)
    ∧ (s.2 = true → domains_size s.1 < domains_size domains)
    ∧ shrinks s.1 domains
    ∧ ∃ tail, s.1 !! TAIL arc = Some tail ∧ (∀ v, v ∈ tail → v ∈ tail0)
       ∧ (s.2 = false ∨ TAIL arc ≠ HEAD arc →
          ∀ v, v ∈ pre → v ∈ tail →
            ∃ head, s.1 !! HEAD arc = Some head
                    ∧ supported (CONSTRAINT arc) v head = true)))
    in Hrun.
  - simpl in Hrun. destruct Hrun as (Hf & Ht & _ & tail & Htail & Hsub & Hsup).
    split_and!; [done..|]. intros Hcase. exists tail. split; [done|].
    intros v Hv. apply Hsup; auto.
  - simpl. split_and!; [done|done|apply shrinks_refl|].
    exists tail0. split_and!; [done..|]. intros _ v Hv. by apply elem_of_nil in Hv.
  - intros p x q [d r] [d1 r1] _ (Hf & Ht & Hs & tail & Htail & Hsub & Hsup) Hbody.
    simpl in *.
    apply check_tail_date_Return in Hbody
      as (head & Hh & [(Hx & -> & ->)|(Hx & tail' & Ht' & Hv & -> & ->)]).
    + split_and!; [done..|]. exists tail. split_and!; [done..|].
      intros Hcase v [Hv| ->%list_elem_of_singleton]%elem_of_app Hvt; eauto.
    + assert (tail' = tail) as -> by congruence.
      assert (TAIL arc < length d) by (by eapply lookup_lt_Some).
      split_and!; [done| | |].
      * intros _.
        pose proof (sum_lengths_insert d (TAIL arc) tail
                      (filter (λ y, y ≠ x) tail) Htail) as Hsum.
        pose proof (filter_ne_shorter x tail Hv) as Hlt.
        pose proof (shrinks_sum _ _ Hs). lia.
      * eapply shrinks_trans; [by apply shrinks_remove | done].
      * exists (filter (λ y, y ≠ x) tail).
        split_and!; [by apply list_lookup_insert_eq | |].
        -- intros v [_ ?]%list_elem_of_filter. auto.
        -- intros [?|Hne]; [done|]. intros v Hvp [Hvx Hvt]%list_elem_of_filter.
           apply elem_of_app in Hvp as [Hvp| ->%list_elem_of_singleton];
             [|done].
           rewrite list_lookup_insert_ne by done. apply Hsup; auto.
Qed.

(** A supported arc is left as it is. *)
Lemma check_fold_supported arc l domains removed :
  (∀ v, v ∈ l →
     ∃ head, domains !! HEAD arc = Some head
             ∧ supported (CONSTRAINT arc) v head = true) →
  foldM (check_tail_date arc) l (domains, removed)
  = Return (domains, removed).
Proof.
  induction l as [|x l IH]; intros Hsup; simpl; [done|].
  destruct (Hsup x) as (head & Hhead & Hx); [left|].
  unfold list_index. rewrite Hhead. simpl.
  fold (supported (CONSTRAINT arc) x head). rewrite Hx. simpl.
  apply IH. intros v Hv. apply Hsup. by right.
Qed.

Lemma arc_supported_unchanged domains arc :
  arc_supported domains arc →
  remove_inconsistent_values domains arc = Return (domains, false).
Proof.
  intros (tail & Htail & Hsup). unfold remove_inconsistent_values, list_index.
  rewrite Htail. simpl. by apply check_fold_supported.
Qed.

Lemma check_tail_date_terminated arc state v :
  terminated (check_tail_date arc state v).
Proof.
  destruct state as [d r]. unfold check_tail_date, list_index, set_remove.
  destruct (d !! HEAD arc); simpl; [|done].
  destruct (existsb _ _); simpl; [done|].
  destruct (d !! TAIL arc); simpl; [|done]. by case_decide.
Qed.

Lemma remove_inconsistent_values_terminated domains arc :
  terminated (remove_inconsistent_values domains arc).
Proof.
  unfold remove_inconsistent_values, list_index.
  destruct (domains !! TAIL arc); simpl; [|done].
  apply foldM_terminated, check_tail_date_terminated.
Qed.

(** On sets, with both variables of the arc in range, the revision
    returns. *)
Lemma check_fold_total arc l domains removed :
  NoDup l → HEAD arc < length domains →
  (∃ tail, domains !! TAIL arc = Some tail ∧ ∀ v, v ∈ l → v ∈ tail) →
  ∃ s, foldM (check_tail_date arc) l (domains, removed) = Return s.
Proof.
  revert domains removed.
  induction l as [|x l IH]; intros d r Hnd Hh (tail & Htail & Hsub); simpl;
    [eauto|].
  apply NoDup_cons in Hnd as [Hx Hnd].
  destruct (lookup_lt_is_Some_2 d (HEAD arc) Hh) as [head Hhead].
  unfold list_index. rewrite Hhead. simpl.
  destruct (existsb _ head); simpl.
  - apply IH; [done..|]. exists tail. split; [done|].
    intros v Hv. apply Hsub. by right.
  - rewrite Htail. simpl. rewrite set_remove_elem by (apply Hsub; left).
    simpl. apply IH; [done|by rewrite length_insert|].
    exists (filter (λ y, y ≠ x) tail). split.
    + apply list_lookup_insert_eq. by eapply lookup_lt_Some.
    + intros v Hv. apply list_elem_of_filter.
      split; [by intros -> | apply Hsub; by right].
Qed.

Lemma remove_inconsistent_values_total domains arc :
  Forall NoDup domains →
  TAIL arc < length domains → HEAD arc < length domains →
  ∃ domains' removed,
    remove_inconsistent_values domains arc = Return (domains', removed).
Proof.
  intros Hnd Ht Hh. unfold remove_inconsistent_values, list_index.
  destruct (lookup_lt_is_Some_2 domains (TAIL arc) Ht) as [tail Htail].
  rewrite Htail. simpl.
  destruct (check_fold_total arc tail domains false) as [[d r] Hrun];
    [by eapply Forall_lookup_1 | done | by exists tail | eauto].
Qed.

End Revise.

(** ** The AC-3 loop *)

Lemma elem_of_delete_or {A : Type} (l : list A) (i : nat) (x a : A) :
  l !! i = Some x → a ∈ l → a = x ∨ a ∈ delete i l.
Proof.
  intros Hi Ha. apply delete_Permutation in Hi.
  rewrite Hi in Ha. by apply elem_of_cons in Ha.
Qed.

Section AC3.

Context {datetime : Type} `{EqDecision datetime}.
Context {C : Type} `{DateConstraint datetime C}.

Implicit Types (c : C) (constraints : list C).
Implicit Types (date : datetime) (assignment : list datetime).
Implicit Types (domain : list datetime) (domains : list (list datetime)).
Implicit Types (arc : @Arc C) (arcs original_arcs : list (@Arc C)).

Lemma Arc_init_binary c r :
  R_VAL c = Some r →
  Arc_init c = Return (mkArc c (L_VAL c) r)
  ∧ Arc_init (get_reverse c) = Return (mkArc (get_reverse c) r (L_VAL c)).
Proof.
  intros Hr. unfold Arc_init.
  by rewrite Hr, (reverse_R_VAL c r Hr), (reverse_L_VAL c r Hr).
Qed.

Lemma build_arcs_from constraints (acc : list (@Arc C)) :
  NoDup acc →
  ∃ arcs,
    foldM (λ arcs c,
             if decide (arity c = 2) then
               forward ← Arc_init c;
               backward ← Arc_init (get_reverse c);
               Return (set_add backward (set_add forward arcs))
             else Return arcs) constraints acc = Return arcs
    ∧ NoDup arcs
    ∧ ∀ a, a ∈ arcs ↔ a ∈ acc ∨ is_arc_of constraints a.
Proof.
  revert acc. induction constraints as [|c cs IH]; intros acc Hnd; simpl.
  - exists acc. split_and!; [done..|]. intros a. split; [auto|].
    intros [?|(c & r & []%elem_of_nil & _)]. done.
  - case_decide as Har.
    + destruct (proj2 (R_VAL_int_iff_binary c) Har) as [r Hr].
      destruct (Arc_init_binary c r Hr) as [-> ->]. simpl.
      destruct (IH (set_add (mkArc (get_reverse c) r (L_VAL c))
                      (set_add (mkArc c (L_VAL c) r) acc)))
        as (arcs & -> & Hnd' & Helem); [by do 2 apply set_add_NoDup|].
      exists arcs. split_and!; [done..|]. intros a.
      rewrite Helem, !set_add_elem. split.
      * intros [[->|[->|?]]|(c' & r' & Hc' & Hrest)].
        -- right. exists c, r. split_and!; [left|done|done|by right].
        -- right. exists c, r. split_and!; [left|done|done|by left].
        -- by left.
        -- right. exists c', r'. split; [by right|done].
      * intros [?|(c' & r' & [->|Hc']%elem_of_cons & Har' & Hr' & Ha)].
        -- auto.
        -- assert (r' = r) as -> by congruence. destruct Ha as [->| ->]; auto.
        -- right. by exists c', r'.
    + simpl. destruct (IH acc Hnd) as (arcs & -> & Hnd' & Helem).
      exists arcs. split_and!; [done..|]. intros a. rewrite Helem. split.
      * intros [?|(c' & r' & Hc' & Hrest)]; [by left|].
        right. exists c', r'. split; [by right|done].
      * intros [?|(c' & r' & [->|Hc']%elem_of_cons & Har' & Hrest)];
          [by left|done|].
        right. by exists c', r'.
Qed.

(** Building the arcs never raises; it yields exactly the forward and
    backward arcs of the binary constraints, once each. *)
Lemma build_arcs_Return constraints :
  ∃ arcs, build_arcs constraints = Return arcs ∧ NoDup arcs
          ∧ ∀ a, a ∈ arcs ↔ is_arc_of constraints a.
Proof.
  destruct (build_arcs_from constraints []) as (arcs & Heq & Hnd & Helem);
    [constructor|].
  exists arcs. split_and!; [done..|]. intros a. rewrite Helem.
  split; [|auto]. by intros [[]%elem_of_nil|?].
Qed.

Lemma requeue_elem original_arcs arc arcs a :
  a ∈ requeue original_arcs arc arcs ↔
  a ∈ arcs ∨ (a ∈ original_arcs ∧ HEAD a = TAIL arc).
Proof.
  unfold requeue. revert arcs.
  induction original_arcs as [|o os IH]; intros arcs; simpl.
  - split; [auto|]. by intros [?|[[]%elem_of_nil _]].
  - rewrite IH, elem_of_cons. case_decide as Hhead.
    + rewrite set_add_elem. split.
      * intros [[->|?]|[? ?]]; auto.
      * intros [?|[[->|?] ?]]; auto.
    + split.
      * intros [?|[? ?]]; auto.
      * intros [?|[[->|?] ?]]; auto. done.
Qed.

Lemma requeue_NoDup original_arcs arc arcs :
  NoDup arcs → NoDup (requeue original_arcs arc arcs).
Proof.
  unfold requeue. revert arcs.
  induction original_arcs as [|o os IH]; intros arcs Hnd; simpl; [done|].
  apply IH. case_decide; [by apply set_add_NoDup | done].
Qed.

Lemma ac3_loop_nil fuel sched original_arcs domains :
  ac3_loop fuel sched original_arcs [] domains = Return domains.
Proof. by destruct fuel. Qed.

Lemma ac3_loop_cons fuel sched original_arcs arcs domains :
  0 < length arcs →
  ac3_loop (S fuel) sched original_arcs arcs domains =
    '(arc, arcs') ← set_pop (sched 0) arcs;
    '(domains', removed) ← remove_inconsistent_values domains arc;
    ac3_loop fuel (sched ∘ S) original_arcs
      (if removed : bool then requeue original_arcs arc arcs' else arcs')
      domains'.
Proof. intros Hlen. simpl. by case_decide. Qed.

(** The loop rule: an invariant of the worklist and the domains kept by
    every iteration holds of the empty worklist at the exit. *)
Lemma ac3_loop_invariant
    (I : list (@Arc C) → list (list datetime) → Prop)
    fuel sched original_arcs arcs domains domains' :
  (∀ arcs domains i arc domains' removed,
     I arcs domains → arcs !! i = Some arc →
     remove_inconsistent_values domains arc = Return (domains', removed) →
     I (if removed : bool
        then requeue original_arcs arc (delete i arcs) else delete i arcs)
       domains') →
  I arcs domains →
  ac3_loop fuel sched original_arcs arcs domains = Return domains' →
  I [] domains'.
Proof.
  intros Hstep. revert sched arcs domains.
  induction fuel as [|fuel IH]; intros sched arcs domains HI Hrun.
  - destruct arcs; simpl in Hrun; [by injection Hrun as <- | done].
  - destruct (decide (0 < length arcs)) as [Hlen|Hlen].
    + rewrite ac3_loop_cons in Hrun by done.
      apply bind_Return in Hrun as ([arc arcs'] & Hpop & Hrun).
      apply bind_Return in Hrun as ([d1 removed] & Hrev & Hrun).
      apply set_pop_Return in Hpop as (i & Hi & ->).
      eapply IH; [|done]. by eapply Hstep.
    + destruct arcs; [|simpl in Hlen; lia].
      rewrite ac3_loop_nil in Hrun. by injection Hrun as <-.
Qed.

Lemma supported_true c v head :
  supported c v head = true ↔
  ∃ w, w ∈ head ∧ is_satisfied_by_values c [v; w] = true.
Proof.
  unfold supported. rewrite existsb_exists.
  split; intros (w & Hw & Hsat); exists w; by rewrite ?list_elem_of_In in *.
Qed.

Lemma arc_consistent_arcs domains constraints :
  arc_consistent domains constraints ↔
  ∀ arc, is_arc_of constraints arc → arc_supported domains arc.
Proof.
  split.
  - intros Hac arc (c & r & Hc & Har & Hr & Harc).
    destruct (Hac c r Hc Har Hr) as [Hfwd Hbwd].
    destruct Harc as [-> | ->]; [destruct Hfwd as (tail & head & Ht & Hh & Hs)
                               | destruct Hbwd as (tail & head & Ht & Hh & Hs)];
      exists tail; (split; [done|]); intros v Hv; exists head;
      (split; [done|]); apply supported_true; by apply Hs.
  - intros Harcs c r Hc Har Hr.
    destruct (Harcs (mkArc c (L_VAL c) r)) as (left & Hl & Hfwd);
      [exists c, r; split_and!; auto|].
    destruct (Harcs (mkArc (get_reverse c) r (L_VAL c))) as (right & Hri & Hbwd);
      [exists c, r; split_and!; auto|].
    simpl in *. split.
    + exists left, right. split_and!; [done..|]. intros v Hv.
      destruct (Hfwd v Hv) as (head & Hhead & Hsup).
      assert (head = right) as -> by congruence. by apply supported_true.
    + exists right, left. split_and!; [done..|]. intros v Hv.
      destruct (Hbwd v Hv) as (head & Hhead & Hsup).
      assert (head = left) as -> by congruence. by apply supported_true.
Qed.

(** Shrinking a domain other than the head keeps an arc supported. *)
Lemma arc_supported_shrinks domains domains' arc t :
  arc_supported domains arc → HEAD arc ≠ t →
  shrinks domains' domains →
  (∀ j, j ≠ t → domains' !! j = domains !! j) →
  arc_supported domains' arc.
Proof.
  intros (tail & Htail & Hsup) Hh Hs Hframe.
  destruct (Forall2_lookup_r _ _ _ _ _ Hs Htail) as (tail' & Htail' & Hsub).
  exists tail'. split; [done|]. intros v Hv.
  rewrite Hframe by done. apply Hsup. by eapply elem_of_sublist.
Qed.

(** Arcs outside the worklist are supported: the invariant of AC-3. *)
Lemma ac3_loop_supported fuel sched original_arcs arcs domains domains' :
  (∀ a, a ∈ original_arcs → a ∉ arcs → arc_supported domains a) →
  ac3_loop fuel sched original_arcs arcs domains = Return domains' →
  ∀ a, a ∈ original_arcs → arc_supported domains' a.
Proof.
  intros Hinit Hrun a Ha.
  refine (ac3_loop_invariant
            (λ arcs domains,
               ∀ a, a ∈ original_arcs → a ∉ arcs → arc_supported domains a)
            _ _ _ _ _ _ _ Hinit Hrun a Ha _); [|apply not_elem_of_nil].
  clear. intros arcs domains i arc domains' removed HI Hi Hrev a Ha Hnot.
  pose proof (remove_inconsistent_values_flag _ _ _ _ Hrev)
    as (Hsame & _ & Hsup).
  destruct removed.
  - rewrite requeue_elem in Hnot.
    assert (HEAD a ≠ TAIL arc) as Hhead by (intros ?; apply Hnot; auto).
    assert (a ∉ delete i arcs) as Hdel by (intros ?; apply Hnot; auto).
    destruct (decide (a = arc)) as [->|Hne].
    + apply Hsup. by right.
    + eapply arc_supported_shrinks;
        [apply HI; [done|] | done
        | by eapply remove_inconsistent_values_shrinks
        | intros j Hj; by eapply remove_inconsistent_values_frame].
      intros Hin. by destruct (elem_of_delete_or _ _ _ _ Hi Hin).
  - rewrite Hsame by done.
    destruct (decide (a = arc)) as [->|Hne].
    + rewrite <- Hsame by done. apply Hsup. by left.
    + apply HI; [done|].
      intros Hin. by destruct (elem_of_delete_or _ _ _ _ Hi Hin).
Qed.

(** On supported arcs the loop only drains the worklist. *)
Lemma ac3_loop_supported_id fuel sched original_arcs arcs domains :
  length arcs ≤ fuel →
  (∀ a, a ∈ arcs → arc_supported domains a) →
  ac3_loop fuel sched original_arcs arcs domains = Return domains.
Proof.
  revert sched arcs.
  induction fuel as [|fuel IH]; intros sched arcs Hlen Hsup.
  - destruct arcs; [apply ac3_loop_nil | simpl in Hlen; lia].
  - destruct (decide (0 < length arcs)) as [Hpos|Hpos].
    + rewrite ac3_loop_cons by done.
      destruct (set_pop_nonempty (sched 0) arcs Hpos) as (arc & arcs' & Hpop).
      rewrite Hpop. simpl.
      apply set_pop_Return in Hpop as (i & Hi & ->).
      rewrite (arc_supported_unchanged domains arc)
        by (apply Hsup; by eapply list_elem_of_lookup_2).
      simpl. apply IH.
      * rewrite length_delete by eauto. lia.
      * intros a Ha. apply Hsup. by eapply list_elem_of_delete_inv.
    + destruct arcs; [apply ac3_loop_nil | simpl in Hpos; lia].
Qed.

Lemma well_formed_shrinks original_arcs domains domains' :
  shrinks domains' domains →
  well_formed original_arcs domains → well_formed original_arcs domains'.
Proof.
  intros Hs [Hnd Hrange]. split; [by eapply shrinks_NoDup|].
  by rewrite (Forall2_length _ _ _ Hs).
Qed.

(** With fuel for the measure (dates left, arcs queued) the loop exits: it
    returns, or it raises on domains that are not well formed. *)
Lemma ac3_loop_outcome fuel sched original_arcs arcs domains :
  NoDup arcs → (∀ a, a ∈ arcs → a ∈ original_arcs) →
  domains_size domains * S (length original_arcs) + length arcs ≤ fuel →
  match ac3_loop fuel sched original_arcs arcs domains with
  | Return _ => True
  | Raise _ => ¬ well_formed original_arcs domains
  | OutOfFuel => False
  end.
Proof.
  revert sched arcs domains.
  induction fuel as [|fuel IH]; intros sched arcs domains Hnd Hsub Hfuel.
  - destruct arcs; [by rewrite ac3_loop_nil | simpl in Hfuel; lia].
  - destruct (decide (0 < length arcs)) as [Hpos|Hpos];
      [|destruct arcs; [by rewrite ac3_loop_nil | simpl in Hpos; lia]].
    rewrite ac3_loop_cons by done.
    destruct (set_pop_nonempty (sched 0) arcs Hpos) as (arc & arcs' & Hpop).
    rewrite Hpop. simpl.
    apply set_pop_Return in Hpop as (i & Hi & ->).
    assert (arc ∈ original_arcs) as Harc
      by (by eapply Hsub, list_elem_of_lookup_2).
    assert (NoDup (delete i arcs)) as Hnd'
      by apply (sublist_NoDup _ arcs Hnd), sublist_delete.
    assert (length (delete i arcs) = length arcs - 1) as Hlen'
      by (rewrite length_delete by eauto; lia).
    pose proof (remove_inconsistent_values_terminated domains arc) as Hterm.
    destruct (remove_inconsistent_values domains arc)
      as [[domains' removed]|e|] eqn:Hrev; simpl; [| |done].
    + pose proof (remove_inconsistent_values_flag _ _ _ _ Hrev)
        as (Hsame & Hless & _).
      pose proof (remove_inconsistent_values_shrinks _ _ _ _ Hrev) as Hs.
      match goal with |- match ?o with _ => _ end => assert
        (match o with
         | Return _ => True
         | Raise _ => ¬ well_formed original_arcs domains'
         | OutOfFuel => False
         end) as Hnext end.
      { apply IH.
        - destruct removed; [by apply requeue_NoDup | done].
        - intros a Ha. destruct removed.
          + apply requeue_elem in Ha as [Ha|[Ha _]]; [|done].
            by eapply Hsub, list_elem_of_delete_inv.
          + by eapply Hsub, list_elem_of_delete_inv.
        - destruct removed.
          + specialize (Hless eq_refl).
            assert (length (requeue original_arcs arc (delete i arcs))
                    ≤ length original_arcs) as Hq.
            { apply submseteq_length, NoDup_submseteq;
                [by apply requeue_NoDup|].
              intros a [Ha|[Ha _]]%requeue_elem; [|done].
              by eapply Hsub, list_elem_of_delete_inv. }
            nia.
          + rewrite (Hsame eq_refl). lia. }
      destruct (ac3_loop fuel _ _ _ domains'); [done| |done].
      intros Hwf. apply Hnext. by eapply well_formed_shrinks.
    + intros [Hdoms Hrange]. destruct (Hrange arc Harc) as [Ht Hh].
      destruct (remove_inconsistent_values_total domains arc Hdoms Ht Hh)
        as (d' & r & Heq). congruence.
Qed.

(** More fuel does not change the outcome of a loop that exits. *)
Lemma ac3_loop_more_fuel fuel extra sched original_arcs arcs domains :
  terminated (ac3_loop fuel sched original_arcs arcs domains) →
  ac3_loop (fuel + extra) sched original_arcs arcs domains
  = ac3_loop fuel sched original_arcs arcs domains.
Proof.
  revert sched arcs domains.
  induction fuel as [|fuel IH]; intros sched arcs domains Hterm.
  - destruct arcs; [by rewrite !ac3_loop_nil | done].
  - destruct (decide (0 < length arcs)) as [Hpos|Hpos];
      [|destruct arcs; [by rewrite !ac3_loop_nil | simpl in Hpos; lia]].
    change (S fuel + extra) with (S (fuel + extra)).
    rewrite !ac3_loop_cons in * by done.
    destruct (set_pop (sched 0) arcs) as [[arc arcs']| |]; simpl in *;
      [|done..].
    destruct (remove_inconsistent_values domains arc)
      as [[domains' removed]| |]; simpl in *; [|done..].
    by apply IH.
Qed.

Lemma constraints_in_range_arcs n constraints arc :
  constraints_in_range n constraints → is_arc_of constraints arc →
  TAIL arc < n ∧ HEAD arc < n.
Proof.
  intros Hrange (c & r & Hc & _ & Hr & [-> | ->]); simpl;
    destruct (Hrange c r Hc Hr); auto.
Qed.

Lemma arc_consistency_total sched domains constraints :
  Forall NoDup domains →
  constraints_in_range (length domains) constraints →
  ∃ domains', arc_consistency sched domains constraints = Return domains'.
Proof.
  intros Hnd Hrange. unfold arc_consistency.
  destruct (build_arcs_Return constraints) as (arcs & -> & Harcs & Helem).
  simpl.
  pose proof (ac3_loop_outcome (ac3_fuel domains arcs) sched arcs arcs domains
                Harcs (λ a Ha, Ha) (Nat.le_refl _)) as Hout.
  destruct (ac3_loop _ _ _ _ _) as [d'|e|]; [eauto| |done].
  destruct Hout. split; [done|]. intros arc Harc.
  eapply constraints_in_range_arcs; [done|]. by apply Helem.
Qed.

Lemma arc_consistency_shrinks sched domains constraints domains' :
  arc_consistency sched domains constraints = Return domains' →
  shrinks domains' domains.
Proof.
  unfold arc_consistency. intros (arcs & _ & Hrun)%bind_Return.
  refine (ac3_loop_invariant (λ _ d, shrinks d domains)
            _ _ _ _ _ _ _ (shrinks_refl _) Hrun).
  intros _ d _ arc d' removed Hd _ Hrev.
  eapply shrinks_trans; [by eapply remove_inconsistent_values_shrinks|done].
Qed.

End AC3.

(** ** Backtracking search *)

Section Backtracker.

Context {datetime : Type} `{EqDecision datetime}.
Context {C : Type} `{DateConstraint datetime C}.

Implicit Types (c : C) (constraints : list C).
Implicit Types (date : datetime) (assignment : list datetime).
Implicit Types (domain : list datetime) (domains : list (list datetime)).

Lemma all_satisfied_true constraints assignment :
  all_satisfied constraints assignment = true ↔
  ∀ c, c ∈ constraints → is_satisfied_by_assignment c assignment = true.
Proof.
  unfold all_satisfied. rewrite forallb_forall.
  split; intros Hall c Hc; apply Hall; by apply list_elem_of_In.
Qed.

(** A constraint that holds of an assignment holds of its prefixes: the
    variables beyond the prefix do not constrain yet. *)
Lemma satisfied_prefix c prefix assignment :
  prefix `prefix_of` assignment →
  is_satisfied_by_assignment c assignment = true →
  is_satisfied_by_assignment c prefix = true.
Proof.
  intros Hpre. destruct (arity_1_or_2 c) as [Har|Har].
  - rewrite !assignment_unary by done.
    destruct (prefix !! L_VAL c) as [d|] eqn:Hd; [|done].
    by rewrite (prefix_lookup_Some _ _ _ _ Hd Hpre).
  - destruct (proj2 (R_VAL_int_iff_binary c) Har) as [r Hr].
    rewrite !(assignment_binary c r) by done.
    destruct (prefix !! L_VAL c) as [x|] eqn:Hx; [|done].
    destruct (prefix !! r) as [y|] eqn:Hy; [|done].
    by rewrite (prefix_lookup_Some _ _ _ _ Hx Hpre),
               (prefix_lookup_Some _ _ _ _ Hy Hpre).
Qed.

Lemma all_satisfied_prefix constraints prefix assignment :
  prefix `prefix_of` assignment →
  all_satisfied constraints assignment = true →
  all_satisfied constraints prefix = true.
Proof.
  rewrite !all_satisfied_true. intros Hpre Hall c Hc.
  eapply satisfied_prefix; [done|]. by apply Hall.
Qed.

Lemma all_satisfied_nil constraints : all_satisfied constraints [] = true.
Proof.
  apply all_satisfied_true. intros c _.
  destruct (arity_1_or_2 c) as [Har|Har].
  - by rewrite assignment_unary.
  - destruct (proj2 (R_VAL_int_iff_binary c) Har) as [r Hr].
    by rewrite (assignment_binary c r).
Qed.

Lemma is_complete_true assignment domains constraints :
  is_complete assignment domains constraints = true ↔
  length assignment = length domains
  ∧ all_satisfied constraints assignment = true.
Proof.
  unfold is_complete. case_decide; split;
    [by intros ? | by intros [_ ?] | done | by intros [? _]].
Qed.

Lemma list_pop_snoc {A : Type} (l : list A) (x : A) :
  list_pop (l ++ [x]) = Return l.
Proof.
  unfold list_pop. rewrite removelast_last. by destruct l.
Qed.

(** *** Soundness *)

Lemma try_dates_sound rec constraints domains dates assignment a' :
  (∀ a a', rec a = Return (a', true) →
           is_complete a' domains constraints = true) →
  try_dates rec constraints dates assignment = Return (a', true) →
  is_complete a' domains constraints = true.
Proof.
  intros Hrec. revert assignment.
  induction dates as [|x dates IH]; intros a; simpl; [done|].
  destruct (all_satisfied constraints (a ++ [x])).
  - intros ([a2 found] & Hcall & Hrun)%bind_Return. destruct found.
    + injection Hrun as <-. by eapply Hrec.
    + apply bind_Return in Hrun as (a3 & _ & Hrun). by eapply IH.
  - intros (a3 & _ & Hrun)%bind_Return. by eapply IH.
Qed.

Lemma recursive_backtracker_sound fuel assignment domains constraints a' :
  recursive_backtracker fuel assignment domains constraints
  = Return (a', true) →
  is_complete a' domains constraints = true.
Proof.
  revert assignment a'.
  induction fuel as [|fuel IH]; intros a a'; simpl;
    destruct (is_complete a domains constraints) eqn:Hc.
  - by intros [= <-].
  - done.
  - by intros [= <-].
  - intros (dates & _ & Hrun)%bind_Return.
    eapply try_dates_sound; [|done]. intros a1 a2. apply IH.
Qed.

(** *** No exception, and the assignment is restored on failure *)

Lemma try_dates_safe rec constraints dates assignment :
  (∀ x, all_satisfied constraints (assignment ++ [x]) = true →
     ∃ a' found, rec (assignment ++ [x]) = Return (a', found)
                 ∧ (found = false → a' = assignment ++ [x])) →
  ∃ a' found, try_dates rec constraints dates assignment = Return (a', found)
              ∧ (found = false → a' = assignment).
Proof.
  intros Hrec. induction dates as [|x dates IH]; simpl; [by eauto|].
  destruct (all_satisfied constraints (assignment ++ [x])) eqn:Hsat.
  - destruct (Hrec x Hsat) as (a2 & found & -> & Hrestore). simpl.
    destruct found; [by exists a2, true|].
    rewrite (Hrestore eq_refl), list_pop_snoc. simpl. apply IH.
  - rewrite list_pop_snoc. simpl. apply IH.
Qed.

Lemma recursive_backtracker_safe fuel assignment domains constraints :
  length assignment ≤ length domains →
  (length assignment = length domains →
   all_satisfied constraints assignment = true) →
  length domains - length assignment ≤ fuel →
  ∃ a' found,
    recursive_backtracker fuel assignment domains constraints
    = Return (a', found)
    ∧ (found = false → a' = assignment).
Proof.
  revert assignment.
  induction fuel as [|fuel IH]; intros a Hle Hfull Hfuel; simpl;
    destruct (is_complete a domains constraints) eqn:Hc;
    try (by exists a, true).
  - exfalso. assert (length a = length domains) as Hlen by lia.
    rewrite (proj2 (is_complete_true a domains constraints)) in Hc;
      [done | auto].
  - assert (length a < length domains) as Hlt.
    { destruct (decide (length a = length domains)) as [Hlen|]; [|lia].
      rewrite (proj2 (is_complete_true a domains constraints)) in Hc;
        [done | auto]. }
    destruct (lookup_lt_is_Some_2 domains (length a) Hlt) as [dates Hdates].
    unfold list_index. rewrite Hdates. simpl.
    apply try_dates_safe. intros x Hsat. apply IH.
    + rewrite length_app. simpl. lia.
    + done.
    + rewrite length_app. simpl. lia.
Qed.

(** *** Completeness *)

Lemma try_dates_complete rec constraints dates assignment v :
  (∀ x, all_satisfied constraints (assignment ++ [x]) = true →
     ∃ a' found, rec (assignment ++ [x]) = Return (a', found)
                 ∧ (found = false → a' = assignment ++ [x])) →
  v ∈ dates →
  all_satisfied constraints (assignment ++ [v]) = true →
  (∃ a', rec (assignment ++ [v]) = Return (a', true)) →
  ∃ a', try_dates rec constraints dates assignment = Return (a', true).
Proof.
  intros Hrec Hv Hsatv [av Hrecv].
  induction dates as [|x dates IH]; [by apply elem_of_nil in Hv|]. simpl.
  destruct (all_satisfied constraints (assignment ++ [x])) eqn:Hsat.
  - destruct (Hrec x Hsat) as (a2 & found & Hcall & Hrestore).
    rewrite Hcall. simpl. destruct found; [by eauto|].
    rewrite (Hrestore eq_refl), list_pop_snoc. simpl. apply IH.
    apply elem_of_cons in Hv as [->|Hv]; [congruence|done].
  - rewrite list_pop_snoc. simpl. apply IH.
    apply elem_of_cons in Hv as [->|Hv]; [congruence|done].
Qed.

Lemma prefix_snoc_lookup {A : Type} (l k : list A) (x : A) :
  l `prefix_of` k → k !! length l = Some x → l ++ [x] `prefix_of` k.
Proof.
  intros [q ->]. destruct q as [|y q].
  - rewrite app_nil_r, lookup_ge_None_2 by lia. done.
  - rewrite list_lookup_middle by done. intros [= ->].
    exists q. by rewrite <- app_assoc.
Qed.

Lemma recursive_backtracker_complete fuel assignment domains constraints sol :
  assignment `prefix_of` sol →
  length sol = length domains →
  all_satisfied constraints sol = true →
  holds_solution sol domains →
  length domains - length assignment ≤ fuel →
  ∃ a', recursive_backtracker fuel assignment domains constraints
        = Return (a', true).
Proof.
  intros Hpre Hlen Hsat Hdom. revert assignment Hpre.
  induction fuel as [|fuel IH]; intros a Hpre Hfuel; simpl;
    destruct (is_complete a domains constraints) eqn:Hc;
    try (by eauto);
    pose proof (prefix_length _ _ Hpre) as Hle;
    (assert (length a < length sol) as Hlt;
     [ destruct (decide (length a = length sol)) as [Heq|]; [|lia];
       apply prefix_length_eq in Hpre; [|lia]; subst a;
       rewrite (proj2 (is_complete_true sol domains constraints)) in Hc;
       [done | by split]
     |]); [lia|].
  destruct (lookup_lt_is_Some_2 sol (length a) Hlt) as [v Hv].
  destruct (Hdom _ _ Hv) as (dates & Hdates & Hin).
  unfold list_index. rewrite Hdates. simpl.
  assert (a ++ [v] `prefix_of` sol) as Hpre' by (by apply prefix_snoc_lookup).
  apply (try_dates_complete _ _ _ _ v).
  - intros x Hx. apply recursive_backtracker_safe; [| done |];
      rewrite length_app; simpl; lia.
  - done.
  - by eapply all_satisfied_prefix.
  - apply IH; [done|]. rewrite length_app. simpl. lia.
Qed.

(** *** What the search returns *)

Lemma try_dates_result rec constraints dates assignment a' found :
  (∀ b b', rec b = Return (b', false) → b' = b) →
  try_dates rec constraints dates assignment = Return (a', found) →
  if found
  then ∃ x, x ∈ dates ∧ all_satisfied constraints (assignment ++ [x]) = true
            ∧ rec (assignment ++ [x]) = Return (a', true)
  else a' = assignment.
Proof.
  intros Hrec. induction dates as [|x dates IH]; simpl.
  - by intros [= <- <-].
  - destruct (all_satisfied constraints (assignment ++ [x])) eqn:Hsat.
    + intros ([a2 found2] & Hcall & Hrun)%bind_Return. destruct found2.
      * injection Hrun as <- <-. exists x. split_and!; [left|done..].
      * apply Hrec in Hcall as ->. rewrite list_pop_snoc in Hrun.
        rewrite bind_of_Return in Hrun. specialize (IH Hrun).
        destruct found; [|done].
        destruct IH as (y & Hy & Hrest). exists y. split; [by right|done].
    + rewrite list_pop_snoc, bind_of_Return. intros Hrun.
      specialize (IH Hrun). destruct found; [|done].
      destruct IH as (y & Hy & Hrest). exists y. split; [by right|done].
Qed.

(** A failed search leaves the shared assignment as it found it. *)
Lemma recursive_backtracker_restores fuel assignment domains constraints a' :
  recursive_backtracker fuel assignment domains constraints
  = Return (a', false) →
  a' = assignment.
Proof.
  revert assignment a'.
  induction fuel as [|fuel IH]; intros a a'; simpl;
    destruct (is_complete a domains constraints); try done.
  intros (dates & _ & Hrun)%bind_Return.
  by apply (try_dates_result _ _ _ _ _ false (λ b b', IH b b')) in Hrun.
Qed.

(** A successful search extends the assignment it was given, with a date of
    its domain for every further variable. *)
Lemma recursive_backtracker_extends fuel assignment domains constraints a' :
  recursive_backtracker fuel assignment domains constraints
  = Return (a', true) →
  assignment `prefix_of` a'
  ∧ ∀ i v, length assignment ≤ i → a' !! i = Some v →
      ∃ domain, domains !! i = Some domain ∧ v ∈ domain.
Proof.
  revert assignment a'.
  induction fuel as [|fuel IH]; intros a a'; simpl;
    destruct (is_complete a domains constraints); try done;
    try (intros [= <-]; split; [done|];
         intros i v Hi Hv%lookup_lt_Some; lia).
  intros (dates & Hdates%list_index_Return & Hrun)%bind_Return.
  apply (try_dates_result _ _ _ _ _ true
           (λ b b', recursive_backtracker_restores fuel b domains
                      constraints b')) in Hrun as (x & Hx & _ & Hrec).
  apply IH in Hrec as [Hpre Hdom]. split.
  - trans (a ++ [x]); [by apply prefix_app_r | done].
  - intros i v Hi Hv.
    destruct (decide (i = length a)) as [->|Hne].
    + assert ((a ++ [x]) !! length a = Some x) as Hax
        by (by apply list_lookup_middle).
      rewrite (prefix_lookup_Some _ _ _ _ Hax Hpre) in Hv.
      injection Hv as <-. eauto.
    + apply Hdom; [|done]. rewrite length_app. simpl. lia.
Qed.

(** *** The recursion limit *)

(** Two recursive calls that differ only where one fails with [bad] give the
    candidate loop the same outcome, unless that outcome is [bad]. *)
Lemma try_dates_agree (bad : outcome (list datetime * bool)) rec rec'
    constraints dates assignment :
  (∀ k : list datetime * bool → outcome (list datetime * bool),
     (bad ≫= k) = bad) →
  (∀ b, rec b ≠ bad → rec' b = rec b) →
  try_dates rec constraints dates assignment ≠ bad →
  try_dates rec' constraints dates assignment
  = try_dates rec constraints dates assignment.
Proof.
  intros Hbad Hrec. revert assignment.
  induction dates as [|z dates IH]; intros a Hne; simpl in *; [done|].
  destruct (all_satisfied constraints (a ++ [z])).
  - assert (rec (a ++ [z]) ≠ bad) as Hcall.
    { intros Heq. apply Hne. rewrite Heq. apply Hbad. }
    rewrite (Hrec _ Hcall).
    destruct (rec (a ++ [z])) as [[a2 [|]]|e|]; simpl in *; try done.
    destruct (list_pop a2) as [a3|e|]; simpl in *; try done. by apply IH.
  - destruct (list_pop (a ++ [z])) as [a3|e|]; simpl in *; try done.
    by apply IH.
Qed.

Lemma try_dates_terminated rec constraints dates assignment :
  (∀ b, rec b ≠ OutOfFuel) →
  try_dates rec constraints dates assignment ≠ OutOfFuel.
Proof.
  intros Hrec. revert assignment.
  induction dates as [|z dates IH]; intros a; simpl; [done|].
  destruct (all_satisfied constraints (a ++ [z])).
  - pose proof (Hrec (a ++ [z])) as Hcall.
    destruct (rec (a ++ [z])) as [[a2 [|]]|e|]; simpl; try done.
    unfold list_pop. destruct a2; simpl; [done | apply IH].
  - rewrite list_pop_snoc. simpl. apply IH.
Qed.

Lemma recursive_backtracker_within_S limit assignment domains constraints :
  recursive_backtracker_within (S limit) assignment domains constraints
  = if is_complete assignment domains constraints
    then Return (assignment, true)
    else
      dates ← list_index domains (length assignment);
      try_dates
        (λ a, recursive_backtracker_within limit a domains constraints)
        constraints dates assignment.
Proof. done. Qed.

Lemma recursive_backtracker_S fuel assignment domains constraints :
  recursive_backtracker (S fuel) assignment domains constraints
  = if is_complete assignment domains constraints
    then Return (assignment, true)
    else
      dates ← list_index domains (length assignment);
      try_dates (λ a, recursive_backtracker fuel a domains constraints)
        constraints dates assignment.
Proof. done. Qed.

(** An outcome of the search other than [OutOfFuel] does not depend on the
    fuel. *)
Lemma recursive_backtracker_stable fuel fuel' assignment domains constraints :
  fuel ≤ fuel' →
  recursive_backtracker fuel assignment domains constraints ≠ OutOfFuel →
  recursive_backtracker fuel' assignment domains constraints
  = recursive_backtracker fuel assignment domains constraints.
Proof.
  revert fuel' assignment.
  induction fuel as [|fuel IH]; intros fuel' a Hle Hne.
  - destruct fuel' as [|fuel']; [done|].
    rewrite recursive_backtracker_S. simpl in *.
    by destruct (is_complete a domains constraints).
  - destruct fuel' as [|fuel']; [lia|].
    rewrite !recursive_backtracker_S in *.
    destruct (is_complete a domains constraints); [done|].
    destruct (list_index domains (length a)) as [dates|e|]; simpl in *;
      try done.
    apply (try_dates_agree OutOfFuel); [done | | done].
    intros b Hb. apply IH; [lia | done].
Qed.

(** With room for one call more than the fuel that was enough, the search
    under the recursion limit is the search. *)
Lemma recursive_backtracker_within_fuel fuel assignment domains constraints :
  recursive_backtracker fuel assignment domains constraints ≠ OutOfFuel →
  recursive_backtracker_within (S fuel) assignment domains constraints
  = recursive_backtracker fuel assignment domains constraints.
Proof.
  revert assignment. induction fuel as [|fuel IH]; intros a Hne.
  - rewrite recursive_backtracker_within_S. simpl in *.
    by destruct (is_complete a domains constraints).
  - rewrite recursive_backtracker_within_S.
    rewrite recursive_backtracker_S in *.
    destruct (is_complete a domains constraints); [done|].
    destruct (list_index domains (length a)) as [dates|e|]; simpl in *;
      try done.
    apply (try_dates_agree OutOfFuel); [done | | done].
    intros b Hb. by apply IH.
Qed.

(** Unless it raises RecursionError, the search under the recursion limit
    is the search. *)
Lemma recursive_backtracker_within_limit limit assignment domains
    constraints :
  recursive_backtracker_within limit assignment domains constraints
  ≠ Raise RecursionError →
  recursive_backtracker limit assignment domains constraints
  = recursive_backtracker_within limit assignment domains constraints.
Proof.
  revert assignment. induction limit as [|limit IH]; intros a Hne; [done|].
  rewrite recursive_backtracker_S.
  rewrite recursive_backtracker_within_S in *.
  destruct (is_complete a domains constraints); [done|].
  destruct (list_index domains (length a)) as [dates|e|]; simpl in *;
    try done.
  apply (try_dates_agree (Raise RecursionError)); [done | | done].
  intros b Hb. by apply IH.
Qed.

Lemma recursive_backtracker_within_terminated limit assignment domains
    constraints :
  recursive_backtracker_within limit assignment domains constraints
  ≠ OutOfFuel.
Proof.
  revert assignment. induction limit as [|limit IH]; intros a; [done|].
  rewrite recursive_backtracker_within_S.
  destruct (is_complete a domains constraints); [done|].
  unfold list_index. destruct (domains !! length a) as [dates|]; [|done].
  simpl. by apply try_dates_terminated.
Qed.

(** A call that [solve] can reach returns what the search returns, or
    raises RecursionError when the meetings left outnumber the calls that
    fit. *)
Lemma recursive_backtracker_within_safe limit assignment domains
    constraints :
  length assignment ≤ length domains →
  (length assignment = length domains →
   all_satisfied constraints assignment = true) →
  (∃ a' found,
     recursive_backtracker_within limit assignment domains constraints
     = Return (a', found)
     ∧ ∀ fuel, length domains - length assignment ≤ fuel →
         recursive_backtracker fuel assignment domains constraints
         = Return (a', found))
  ∨ (recursive_backtracker_within limit assignment domains constraints
     = Raise RecursionError
     ∧ limit ≤ length domains - length assignment).
Proof.
  intros Hle Hfull.
  assert (∀ fuel, length domains - length assignment ≤ fuel →
            recursive_backtracker fuel assignment domains constraints
            ≠ OutOfFuel) as Hsafe.
  { intros fuel Hfuel.
    destruct (recursive_backtracker_safe fuel assignment domains constraints)
      as (a' & found & -> & _); done. }
  assert (∀ fuel e, length domains - length assignment ≤ fuel →
            recursive_backtracker fuel assignment domains constraints
            ≠ Raise e) as Hreturns.
  { intros fuel e Hfuel.
    destruct (recursive_backtracker_safe fuel assignment domains constraints)
      as (a' & found & -> & _); done. }
  destruct (recursive_backtracker_within limit assignment domains constraints)
    as [[a' found]|e|] eqn:Hw.
  - left. exists a', found. split; [done|]. intros fuel Hfuel.
    assert (recursive_backtracker limit assignment domains constraints
            = Return (a', found)) as Hlimit
      by (rewrite recursive_backtracker_within_limit; by rewrite Hw).
    rewrite <- (recursive_backtracker_stable fuel (fuel + limit));
      [|lia | by apply Hsafe].
    rewrite (recursive_backtracker_stable limit (fuel + limit));
      [done | lia | by rewrite Hlimit].
  - right.
    destruct (decide (limit ≤ length domains - length assignment))
      as [Hsmall|Hbig].
    + split; [|done]. f_equal.
      destruct (decide (e = RecursionError)) as [|Hne]; [done|]. exfalso.
      assert (recursive_backtracker limit assignment domains constraints
              = Raise e) as Hlimit
        by (rewrite recursive_backtracker_within_limit; rewrite Hw;
            congruence).
      apply (Hreturns (limit + length domains) e); [lia|].
      rewrite (recursive_backtracker_stable limit); [done | lia |].
      by rewrite Hlimit.
    + exfalso. destruct limit as [|fuel]; [lia|].
      rewrite recursive_backtracker_within_fuel in Hw by (apply Hsafe; lia).
      apply (Hreturns fuel e); [lia | done].
  - by destruct (recursive_backtracker_within_terminated limit assignment
                   domains constraints).
Qed.

End Backtracker.

(** ** Filtering keeps every solution *)

Section Solutions.

Context {datetime : Type} `{EqDecision datetime}.
Context {C : Type} `{DateConstraint datetime C}.

Implicit Types (c : C) (constraints : list C).
Implicit Types (date : datetime) (assignment sol : list datetime).
Implicit Types (domain : list datetime) (domains : list (list datetime)).
Implicit Types (arc : @Arc C) (arcs original_arcs : list (@Arc C)).

Lemma is_arc_of_holds constraints sol arc :
  all_satisfied constraints sol = true →
  is_arc_of constraints arc → arc_holds sol arc.
Proof.
  rewrite all_satisfied_true.
  intros Hsat (c & r & Hc & _ & Hr & Harc) v w Hv Hw.
  specialize (Hsat c Hc). rewrite (assignment_binary c r) in Hsat by done.
  destruct Harc as [-> | ->]; simpl in *.
  - by rewrite Hv, Hw in Hsat.
  - rewrite (reverse_values c r) by done. by rewrite Hv, Hw in Hsat.
Qed.

Lemma node_consistency_keeps_solution domains constraints domains' sol :
  node_consistency domains constraints = Return domains' →
  all_satisfied constraints sol = true →
  holds_solution sol domains → holds_solution sol domains'.
Proof.
  intros ->%node_consistency_Return Hsat Hdom i v Hv.
  destruct (Hdom i v Hv) as (domain & Hi & Hin).
  rewrite list_lookup_imap, Hi. simpl. eexists. split; [done|].
  apply list_elem_of_filter. split; [|done].
  apply violates_unary_ok. intros c Hc Har Hl.
  rewrite all_satisfied_true in Hsat. specialize (Hsat c Hc).
  rewrite assignment_unary in Hsat by done. by rewrite Hl, Hv in Hsat.
Qed.

Lemma remove_inconsistent_values_keeps_solution
    arc domains domains' removed sol :
  remove_inconsistent_values domains arc = Return (domains', removed) →
  arc_holds sol arc → HEAD arc < length sol →
  holds_solution sol domains → holds_solution sol domains'.
Proof.
  intros Hrev Harc Hhead Hdom. revert Hrev.
  apply (remove_inconsistent_values_preserves (holds_solution sol)); [done|].
  intros d tail head v Hd Ht Hh Hv Hsup i u Hu.
  destruct (Hd i u Hu) as (domain & Hi & Hin).
  destruct (decide (i = TAIL arc)) as [->|Hne];
    [|rewrite list_lookup_insert_ne by done; eauto].
  rewrite list_lookup_insert_eq by (by eapply lookup_lt_Some).
  eexists. split; [done|]. assert (domain = tail) as -> by congruence.
  apply list_elem_of_filter. split; [|done]. intros ->.
  destruct (lookup_lt_is_Some_2 sol (HEAD arc) Hhead) as [w Hw].
  destruct (Hd _ _ Hw) as (head' & Hh' & Hwin).
  assert (head' = head) as -> by congruence.
  assert (supported (CONSTRAINT arc) v head = true) as Hyes
    by (apply supported_true; exists w; split; [done|by apply Harc]).
  congruence.
Qed.

Lemma arc_consistency_keeps_solution sched domains constraints domains' sol :
  arc_consistency sched domains constraints = Return domains' →
  constraints_in_range (length sol) constraints →
  all_satisfied constraints sol = true →
  holds_solution sol domains → holds_solution sol domains'.
Proof.
  unfold arc_consistency. intros (arcs & Hbuild & Hrun)%bind_Return.
  intros Hrange Hsat Hdom.
  destruct (build_arcs_Return constraints) as (arcs' & Hbuild' & _ & Helem).
  assert (arcs' = arcs) as -> by congruence.
  refine (proj2 (ac3_loop_invariant
            (λ work d, (∀ a, a ∈ work → a ∈ arcs) ∧ holds_solution sol d)
            _ _ _ _ _ _ _ (conj (λ a Ha, Ha) Hdom) Hrun)).
  intros work d i arc d' removed [Hsub Hd] Hi Hrev.
  assert (arc ∈ arcs) as Harc by (by eapply Hsub, list_elem_of_lookup_2).
  split.
  - intros a Ha. destruct removed.
    + apply requeue_elem in Ha as [Ha|[Ha _]]; [|done].
      by eapply Hsub, list_elem_of_delete_inv.
    + by eapply Hsub, list_elem_of_delete_inv.
  - eapply remove_inconsistent_values_keeps_solution; [done| | |done].
    + eapply is_arc_of_holds; [done|]. by apply Helem.
    + eapply constraints_in_range_arcs; [done|]. by apply Helem.
Qed.

End Solutions.

(** ** The solver on the store agrees with the solver on values *)

Section StoreFacts.

Context {datetime : Type} `{EqDecision datetime}.
Context {C : Type} `{DateConstraint datetime C}.

Implicit Types (c : C) (constraints : list C).
Implicit Types (σ : store datetime) (domains : list address).
Implicit Types (ds : list (list datetime)).
Implicit Types (arc : @Arc C) (arcs original_arcs : list (@Arc C)).

Lemma set_at_lookup σ r : r < length σ → σ !! r = Some (set_at σ r).
Proof.
  intros Hr. unfold set_at.
  destruct (lookup_lt_is_Some_2 σ r Hr) as [s Hs]. by rewrite Hs.
Qed.

Lemma set_at_insert σ r s : r < length σ → set_at (<[r:=s]> σ) r = s.
Proof. intros Hr. unfold set_at. by rewrite list_lookup_insert_eq. Qed.

Lemma set_at_insert_ne σ r r' s : r ≠ r' → set_at (<[r:=s]> σ) r' = set_at σ r'.
Proof. intros Hr. unfold set_at. by rewrite list_lookup_insert_ne. Qed.

Lemma contents_lookup σ domains i r :
  domains !! i = Some r → contents σ domains !! i = Some (set_at σ r).
Proof. intros Hi. unfold contents. by rewrite list_lookup_fmap, Hi. Qed.

Lemma contents_lookup_None σ domains i :
  domains !! i = None → contents σ domains !! i = None.
Proof. intros Hi. unfold contents. by rewrite list_lookup_fmap, Hi. Qed.

Lemma contents_insert σ domains i r s :
  NoDup domains → domains !! i = Some r → r < length σ →
  contents (<[r:=s]> σ) domains = <[i:=s]> (contents σ domains).
Proof.
  intros Hnd Hi Hr. apply list_eq. intros j.
  destruct (decide (i = j)) as [<-|Hne].
  - rewrite list_lookup_insert_eq
      by (unfold contents; rewrite length_fmap; by eapply lookup_lt_Some).
    by rewrite (contents_lookup _ _ _ _ Hi), set_at_insert.
  - rewrite list_lookup_insert_ne by done.
    destruct (domains !! j) as [r'|] eqn:Hj.
    + rewrite !(contents_lookup _ _ _ _ Hj), set_at_insert_ne; [done|].
      intros ->. apply Hne. by eapply NoDup_lookup.
    + by rewrite !contents_lookup_None.
Qed.

Lemma contents_frame σ σ' domains :
  (∀ r, r ∈ domains → σ' !! r = σ !! r) →
  contents σ' domains = contents σ domains.
Proof.
  intros Hsame. unfold contents. apply list_fmap_ext.
  intros i r Hi. unfold set_at. rewrite Hsame; [done|].
  by eapply list_elem_of_lookup_2.
Qed.

Lemma simulates_refl {X : Type} domains σ (x : X) :
  simulates domains σ (Return x, σ) (Return (contents σ domains, x)).
Proof. by split_and!. Qed.

Lemma agrees_ret {X : Type} domains (x : X) :
  agrees domains (mret x) (λ ds, Return (ds, x)).
Proof. intros σ _. apply simulates_refl. Qed.

Lemma agrees_lift {X : Type} domains (o : outcome X) :
  agrees domains (lift o) (λ ds, x ← o; Return (ds, x)).
Proof. intros σ _. destruct o; by split_and!. Qed.

Lemma agrees_ext {X : Type} domains (m : @run datetime X) p p' :
  (∀ ds, length ds = length domains → p ds = p' ds) →
  agrees domains m p → agrees domains m p'.
Proof.
  intros Hext Hm σ Hal. rewrite <- Hext; [by apply Hm|].
  unfold contents. by rewrite length_fmap.
Qed.

Lemma agrees_bind {X Y : Type} domains (m : @run datetime X) p
    (f : X → @run datetime Y) q :
  agrees domains m p → (∀ x, agrees domains (f x) (q x)) →
  agrees domains (m ≫= f) (λ ds, r ← p ds; q r.2 r.1).
Proof.
  intros Hm Hf σ Hal. specialize (Hm σ Hal).
  unfold mbind at 1, run_bind.
  destruct (m σ) as [o σ1]. destruct Hm as (Hlen & Hframe & Hres).
  simpl in Hlen, Hframe, Hres.
  destruct (p (contents σ domains)) as [[ds1 x]|e|]; simpl.
  - destruct Hres as [-> <-].
    assert (allocated domains σ1) as Hal1
      by (destruct Hal; split; [done|by rewrite Hlen]).
    specialize (Hf x σ1 Hal1).
    destruct (f x σ1) as [o2 σ2]. destruct Hf as (Hlen2 & Hframe2 & Hres2).
    split_and!; [simpl in *; congruence | | done].
    intros r Hr. simpl in *. by rewrite Hframe2, Hframe.
  - subst o. by split_and!.
  - subst o. by split_and!.
Qed.

(** Reading the set of variable [i] through its address. *)
Lemma agrees_get_set {X : Type} domains i (f : list datetime → @run datetime X) q :
  (∀ d, agrees domains (f d) (q d)) →
  agrees domains (r ← lift (list_index domains i); d ← set_read r; f d)
                 (λ ds, d ← list_index ds i; q d ds).
Proof.
  intros Hf σ Hal. unfold mbind at 1 2, run_bind, lift, set_read, list_index.
  destruct (domains !! i) as [r|] eqn:Hi.
  - rewrite (contents_lookup _ _ _ _ Hi). simpl. by apply Hf.
  - rewrite (contents_lookup_None _ _ _ Hi). by split_and!.
Qed.

(** Removing a date from the set of variable [i] through its address. *)
Lemma agrees_remove {X : Type} domains i (x : datetime) (y : X) :
  agrees domains
    (r ← lift (list_index domains i); _ ← set_remove_st r x; mret y)
    (λ ds, d ← list_index ds i; d' ← set_remove x d;
           Return (<[i:=d']> ds, y)).
Proof.
  intros σ [Hnd Hal]. unfold mbind at 1 2, run_bind, lift, list_index.
  destruct (domains !! i) as [r|] eqn:Hi.
  - rewrite (contents_lookup _ _ _ _ Hi). simpl. unfold set_remove_st.
    assert (r < length σ) as Hr by (by eapply Hal, list_elem_of_lookup_2).
    destruct (set_remove x (set_at σ r)) as [s'| |]; simpl;
      [|by split_and!..].
    split_and!; simpl.
    + by rewrite length_insert.
    + intros r' Hr'. rewrite list_lookup_insert_ne; [done|].
      intros ->. apply Hr'. by eapply list_elem_of_lookup_2.
    + done.
    + by apply contents_insert.
  - rewrite (contents_lookup_None _ _ _ Hi). by split_and!.
Qed.

Lemma agrees_foldS {A S : Type} domains (body : S → A → @run datetime S)
    (pbody : list (list datetime) * S → A → outcome (list (list datetime) * S))
    (xs : list A) (s : S) :
  (∀ s x, agrees domains (body s x) (λ ds, pbody (ds, s) x)) →
  agrees domains (foldS body xs s) (λ ds, foldM pbody xs (ds, s)).
Proof.
  intros Hbody. revert s. induction xs as [|x xs IH]; intros s; simpl.
  - apply agrees_ret.
  - eapply agrees_ext; [|apply agrees_bind; [apply Hbody | apply IH]].
    intros ds _. simpl. by destruct (pbody (ds, s) x) as [[ds' s']| |].
Qed.

Lemma check_tail_date_agrees domains arc removed v :
  agrees domains (check_tail_date_st domains arc removed v)
                 (λ ds, check_tail_date arc (ds, removed) v).
Proof.
  unfold check_tail_date_st, check_tail_date.
  apply (agrees_get_set domains (HEAD arc)
           (λ d, if existsb _ d then mret removed else _)
           (λ d ds, if existsb _ d then Return (ds, removed) else _)).
  intros d. destruct (existsb _ d); [apply agrees_ret | apply agrees_remove].
Qed.

Lemma remove_inconsistent_values_agrees domains arc :
  agrees domains (remove_inconsistent_values_st domains arc)
                 (λ ds, remove_inconsistent_values ds arc).
Proof.
  unfold remove_inconsistent_values_st, remove_inconsistent_values.
  apply (agrees_get_set domains (TAIL arc)
           (λ d, foldS (check_tail_date_st domains arc) d false)
           (λ d ds, foldM (check_tail_date arc) d (ds, false))).
  intros d. apply agrees_foldS. intros s x. apply check_tail_date_agrees.
Qed.

Lemma ac3_loop_agrees fuel sched original_arcs arcs domains :
  agrees domains (ac3_loop_st fuel sched original_arcs arcs domains)
    (λ ds, ds' ← ac3_loop fuel sched original_arcs arcs ds; Return (ds', ())).
Proof.
  revert sched arcs. induction fuel as [|fuel IH]; intros sched arcs; simpl.
  - case_decide; [apply (agrees_lift domains OutOfFuel) | apply agrees_ret].
  - case_decide; [|apply agrees_ret].
    set (q := λ (x : @Arc C * list (@Arc C)) ds,
           r ← remove_inconsistent_values ds x.1;
           ds'' ← ac3_loop fuel (sched ∘ S) original_arcs
                    (if r.2 : bool
                     then requeue original_arcs x.1 x.2 else x.2) r.1;
           Return (ds'', ())).
    apply (agrees_ext domains _
             (λ ds, r ← (x ← set_pop (sched 0) arcs; Return (ds, x));
                    q r.2 r.1)).
    + intros ds _. unfold q.
      destruct (set_pop (sched 0) arcs) as [[arc arcs']| |]; simpl;
        [|done..].
      by destruct (remove_inconsistent_values ds arc) as [[ds' removed]| |].
    + apply agrees_bind; [apply agrees_lift|].
      intros [arc arcs']. unfold q. simpl.
      apply (agrees_ext domains _
               (λ ds, r ← remove_inconsistent_values ds arc;
                      (λ (removed : bool) ds',
                         ds'' ← ac3_loop fuel (sched ∘ S) original_arcs
                                  (if removed
                                   then requeue original_arcs arc arcs'
                                   else arcs') ds';
                         Return (ds'', ())) r.2 r.1)).
      * intros ds _.
        by destruct (remove_inconsistent_values ds arc)
          as [[ds' removed]| |].
      * exact (agrees_bind domains _ _ _ _
                 (remove_inconsistent_values_agrees domains arc)
                 (λ removed : bool,
                    IH (sched ∘ S)
                       (if removed then requeue original_arcs arc arcs'
                        else arcs'))).
Qed.

Lemma arc_consistency_agrees sched domains constraints :
  agrees domains (arc_consistency_st sched domains constraints)
    (λ ds, ds' ← arc_consistency sched ds constraints; Return (ds', ())).
Proof.
  intros σ Hal. unfold arc_consistency_st, arc_consistency.
  unfold mbind at 1 2, run_bind, lift, read_all.
  destruct (build_arcs constraints) as [arcs| |]; simpl;
    [|by split_and!..].
  by apply ac3_loop_agrees.
Qed.

Lemma cell_simulates_refl r σ :
  r < length σ → cell_simulates r σ (Return (), σ) (Return (set_at σ r)).
Proof.
  intros Hr. exists (set_at σ r). split; [|done]. simpl.
  by rewrite list_insert_id by (by apply set_at_lookup).
Qed.

Lemma prune_date_st_cell ucs index x r σ :
  r < length σ →
  cell_simulates r σ (prune_date_st ucs index x r σ)
                     (prune_date ucs index x (set_at σ r)).
Proof.
  intros Hr. induction ucs as [|uc ucs IH]; simpl.
  - by apply cell_simulates_refl.
  - destruct (bool_decide _ && negb _); [|done]. unfold set_remove_st.
    destruct (set_remove x (set_at σ r)) as [s'|e|]; simpl.
    + by exists s'.
    + exists (set_at σ r). split; [|done]. simpl.
      by rewrite list_insert_id by (by apply set_at_lookup).
    + exists (set_at σ r). split; [|done]. simpl.
      by rewrite list_insert_id by (by apply set_at_lookup).
Qed.

Lemma prune_fold_cell ucs index l r σ d :
  r < length σ → set_at σ r = d →
  cell_simulates r σ
    (foldS (λ _ date, prune_date_st ucs index date r) l () σ)
    (foldM (λ domain date, prune_date ucs index date domain) l d).
Proof.
  revert σ d. induction l as [|x l IH]; intros σ d Hr <-; simpl.
  - by apply cell_simulates_refl.
  - unfold mbind at 1, run_bind.
    destruct (prune_date_st_cell ucs index x r σ Hr) as (s & Hσ1 & Hres).
    destruct (prune_date_st ucs index x r σ) as [o1 σ1]. simpl in *.
    subst σ1.
    destruct (prune_date ucs index x (set_at σ r)) as [d'|e|]; simpl.
    + destruct Hres as [-> ->].
      destruct (IH (<[r:=d']> σ) d') as (s2 & Hσ2 & Hres2);
        [by rewrite length_insert | by apply set_at_insert |].
      exists s2. split; [|done].
      by rewrite Hσ2, list_insert_insert_eq.
    + subst o1. by exists s.
    + subst o1. by exists s.
Qed.

Lemma node_consistency_from_agrees index ucs domains :
  agrees domains (node_consistency_from_st index ucs domains)
    (λ ds, ds' ← node_consistency_from index ucs ds; Return (ds', ())).
Proof.
  revert index. induction domains as [|r rest IH]; intros index.
  - intros σ _. apply simulates_refl.
  - intros σ [[Hr Hnd]%NoDup_cons Hal].
    assert (r < length σ) as Hlt by (apply Hal; left).
    change (contents σ (r :: rest)) with (set_at σ r :: contents σ rest).
    simpl. unfold mbind at 1 2, run_bind, set_read.
    destruct (prune_fold_cell ucs index (set_at σ r) r σ (set_at σ r) Hlt
                eq_refl) as (s & Hσ1 & Hres).
    destruct (foldS _ (set_at σ r) () σ) as [o1 σ1]. simpl in *. subst σ1.
    assert (∀ r', r' ∉ r :: rest → r' ≠ r)
      as Hne by (intros r' Hr' ->; apply Hr'; left).
    destruct (foldM _ (set_at σ r) (set_at σ r)) as [d'|e|]; simpl.
    + destruct Hres as [-> ->].
      assert (allocated rest (<[r:=d']> σ)) as Hal1.
      { split; [done|]. intros r' Hr'. rewrite length_insert.
        apply Hal. by right. }
      specialize (IH (S index) _ Hal1).
      rewrite (contents_frame σ (<[r:=d']> σ) rest) in IH
        by (intros r' Hr'; apply list_lookup_insert_ne; by intros ->).
      destruct (node_consistency_from_st (S index) ucs rest (<[r:=d']> σ))
        as [o2 σ2]. destruct IH as (Hlen2 & Hframe2 & Hres2). simpl in *.
      rewrite length_insert in Hlen2.
      assert (∀ r', r' ∉ r :: rest → σ2 !! r' = σ !! r') as Hframe.
      { intros r' Hr'. rewrite Hframe2 by (intros ?; apply Hr'; by right).
        apply list_lookup_insert_ne. intros ->. apply Hr'. left. }
      destruct (node_consistency_from (S index) ucs (contents σ rest))
        as [rest'|e|]; simpl in *;
        [destruct Hres2 as [-> <-]|subst o2; by split_and!..].
      split_and!; [done..|]. simpl.
      change (contents σ2 (r :: rest))
        with (set_at σ2 r :: contents σ2 rest).
      f_equal. unfold set_at.
      by rewrite Hframe2, list_lookup_insert_eq.
    + subst o1. split_and!; simpl; [by rewrite length_insert | | done].
      intros r' Hr'. apply list_lookup_insert_ne.
      intros Heq. by apply (Hne r' Hr').
    + subst o1. split_and!; simpl; [by rewrite length_insert | | done].
      intros r' Hr'. apply list_lookup_insert_ne.
      intros Heq. by apply (Hne r' Hr').
Qed.

Lemma node_consistency_agrees domains constraints :
  agrees domains (node_consistency_st domains constraints)
    (λ ds, ds' ← node_consistency ds constraints; Return (ds', ())).
Proof. apply node_consistency_from_agrees. Qed.

(** The search reads the domains and writes nothing. *)
Lemma try_dates_st_eq rec prec constraints dates assignment σ :
  (∀ a, rec a σ = (prec a, σ)) →
  try_dates_st rec constraints dates assignment σ
  = (try_dates prec constraints dates assignment, σ).
Proof.
  intros Hrec. revert assignment.
  induction dates as [|x dates IH]; intros a; simpl; [done|].
  destruct (all_satisfied constraints (a ++ [x])).
  - unfold mbind at 1, run_bind. rewrite Hrec.
    destruct (prec (a ++ [x])) as [[a2 found]|e|]; simpl; [|done..].
    destruct found; [done|].
    unfold mbind at 1, run_bind, lift.
    destruct (list_pop a2) as [a3|e|]; simpl; [apply IH | done..].
  - unfold mbind at 1, run_bind, lift.
    destruct (list_pop (a ++ [x])) as [a3|e|]; simpl; [apply IH | done..].
Qed.

Lemma recursive_backtracker_st_eq fuel assignment domains constraints σ :
  recursive_backtracker_st fuel assignment domains constraints σ
  = (recursive_backtracker fuel assignment (contents σ domains) constraints,
     σ).
Proof.
  revert assignment. induction fuel as [|fuel IH]; intros a; simpl;
    (replace (is_complete a (contents σ domains) constraints)
       with (is_complete a domains constraints)
       by (unfold is_complete, contents; by rewrite length_fmap));
    destruct (is_complete a domains constraints); try done.
  unfold mbind at 1 2, run_bind, lift, set_read, list_index.
  destruct (domains !! length a) as [r|] eqn:Hr.
  - rewrite (contents_lookup _ _ _ _ Hr). simpl.
    apply try_dates_st_eq. intros a'. apply IH.
  - by rewrite (contents_lookup_None _ _ _ Hr).
Qed.

(** The comprehension allocates [n_meetings] new sets, each a copy of the
    range. *)
Lemma copy_domains_spec n_meetings (date_range : address) σ :
  date_range < length σ →
  copy_domains n_meetings date_range σ
  = (Return (seq (length σ) n_meetings),
     σ ++ replicate n_meetings (set_at σ date_range)).
Proof.
  revert σ. induction n_meetings as [|n IH]; intros σ Hr; simpl.
  - by rewrite app_nil_r.
  - unfold mbind at 1 2, run_bind, set_copy.
    rewrite IH by (rewrite length_app; simpl; lia).
    rewrite length_app. simpl.
    replace (length σ + 1) with (S (length σ)) by lia.
    assert (set_at (σ ++ [set_at σ date_range]) date_range
            = set_at σ date_range) as ->
      by (unfold set_at; by rewrite lookup_app_l).
    by rewrite <- app_assoc.
Qed.

End StoreFacts.

(** * The claims of the specification *)

Section Claims.

Context {datetime : Type} `{EqDecision datetime}.
Context {C : Type} `{DateConstraint datetime C}.

Implicit Types (c : C) (constraints : list C).
Implicit Types (date : datetime) (assignment sol : list datetime).
Implicit Types (domain : list datetime) (domains : list (list datetime)).
Implicit Types (arc : @Arc C).

Lemma node_consistency_shrinks domains constraints domains' :
  node_consistency domains constraints = Return domains' →
  shrinks domains' domains.
Proof.
  intros ->%node_consistency_Return.
  apply Forall2_same_length_lookup_2; [by rewrite length_imap|].
  intros i x y. rewrite list_lookup_imap. intros Hx Hy. rewrite Hy in Hx.
  injection Hx as <-. apply sublist_filter.
Qed.

Lemma arc_consistency_Return_arcs sched domains constraints domains' arc :
  arc_consistency sched domains constraints = Return domains' →
  is_arc_of constraints arc → arc_supported domains' arc.
Proof.
  unfold arc_consistency. intros (arcs & Hbuild & Hrun)%bind_Return.
  destruct (build_arcs_Return constraints) as (arcs' & Hbuild' & _ & Helem).
  assert (arcs' = arcs) as -> by congruence.
  intros Harc%Helem. by eapply ac3_loop_supported.
Qed.

Lemma shrinks_subset domains' domains :
  shrinks domains' domains →
  length domains' = length domains
  ∧ ∀ i domain', domains' !! i = Some domain' →
      ∃ domain, domains !! i = Some domain ∧ ∀ v, v ∈ domain' → v ∈ domain.
Proof.
  intros Hs. split; [by eapply Forall2_length|].
  intros i domain' Hi.
  destruct (shrinks_lookup _ _ _ _ Hs Hi) as (domain & Hdom & Hsub).
  exists domain. split; [done|]. intros v Hv. by eapply elem_of_sublist.
Qed.

Lemma filtered_dates_from_range sched n_meetings date_range constraints
    d1 d2 i domain v :
  node_consistency ((λ _, date_range) <$> seq 0 n_meetings) constraints
  = Return d1 →
  arc_consistency sched d1 constraints = Return d2 →
  d2 !! i = Some domain → v ∈ domain → v ∈ date_range.
Proof.
  intros Hnode%node_consistency_shrinks Harc%arc_consistency_shrinks Hi Hv.
  destruct (shrinks_lookup _ _ _ _ Harc Hi) as (dom1 & Hdom1 & Hsub1).
  destruct (shrinks_lookup _ _ _ _ Hnode Hdom1) as (dom0 & Hdom0 & Hsub0).
  apply list_lookup_fmap_Some in Hdom0 as (k & -> & _).
  eapply elem_of_sublist; [|done]. by eapply elem_of_sublist.
Qed.

(** C1. Soundness of [solve]: a returned assignment has one date per
    meeting and satisfies every constraint. *)
Theorem solve_sound sched n_meetings date_range constraints assignment :
  solve sched n_meetings date_range constraints = Return (Some assignment) →
  length assignment = n_meetings
  ∧ ∀ c, c ∈ constraints → is_satisfied_by_assignment c assignment = true.
Proof.
  unfold solve.
  intros (d1 & Hnode & Hrun)%bind_Return.
  apply bind_Return in Hrun as (d2 & Harc & Hrun).
  apply bind_Return in Hrun as ([a found] & Hsearch & Hret).
  destruct found; [|done]. injection Hret as ->.
  apply recursive_backtracker_sound, is_complete_true in Hsearch
    as [Hlen Hsat].
  split; [|by apply all_satisfied_true].
  apply arc_consistency_shrinks, Forall2_length in Harc.
  apply node_consistency_shrinks, Forall2_length in Hnode.
  rewrite length_fmap, length_seq in Hnode. congruence.
Qed.

(** C2, as amended. Completeness of [solve] when the binary constraints
    mention meetings below [n_meetings] only and the recursion limit leaves
    room for more nested calls of the search than there are meetings: if
    some assignment of [n_meetings] dates of the range satisfies every
    constraint, the two filtering passes return, keep every date of that
    assignment in the domain of its meeting, and [solve] returns an
    assignment of [n_meetings] dates of the range that satisfies every
    constraint, never [None]. *)
Theorem solve_complete limit sched n_meetings date_range constraints sol :
  NoDup date_range →
  constraints_in_range n_meetings constraints →
  n_meetings < limit →
  length sol = n_meetings →
  (∀ v, v ∈ sol → v ∈ date_range) →
  all_satisfied constraints sol = true →
  ∃ d1 d2 assignment,
    node_consistency ((λ _, date_range) <$> seq 0 n_meetings) constraints
    = Return d1
    ∧ arc_consistency sched d1 constraints = Return d2
    ∧ holds_solution sol d1 ∧ holds_solution sol d2
    ∧ solve_within limit sched n_meetings date_range constraints
      = Return (Some assignment)
    ∧ length assignment = n_meetings
    ∧ (∀ v, v ∈ assignment → v ∈ date_range)
    ∧ all_satisfied constraints assignment = true.
Proof.
  intros Hnd Hrange Hlimit Hlen Hin Hsat.
  set (d0 := (λ _, date_range) <$> seq 0 n_meetings).
  assert (length d0 = n_meetings) as Hlen0
    by (unfold d0; by rewrite length_fmap, length_seq).
  assert (Forall NoDup d0) as Hnd0.
  { apply Forall_forall. intros d (y & -> & _)%list_elem_of_fmap. done. }
  assert (holds_solution sol d0) as Hsol0.
  { intros i v Hv. exists date_range. split.
    - unfold d0. rewrite list_lookup_fmap, lookup_seq_lt; [done|].
      apply lookup_lt_Some in Hv. lia.
    - by eapply Hin, list_elem_of_lookup_2. }
  destruct (node_consistency_from_total 0 (unary_of constraints) d0 Hnd0)
    as [d1 Hnode].
  change (node_consistency d0 constraints = Return d1) in Hnode.
  pose proof (node_consistency_shrinks _ _ _ Hnode) as Hs1.
  pose proof (Forall2_length _ _ _ Hs1) as Hlen1.
  destruct (arc_consistency_total sched d1 constraints) as [d2 Harc];
    [by eapply shrinks_NoDup | by rewrite Hlen1, Hlen0 |].
  pose proof (arc_consistency_shrinks _ _ _ _ Harc) as Hs2.
  pose proof (Forall2_length _ _ _ Hs2) as Hlen2.
  assert (holds_solution sol d1) as Hsol1
    by (by eapply node_consistency_keeps_solution).
  assert (holds_solution sol d2) as Hsol2
    by (eapply arc_consistency_keeps_solution; [done| |done..];
        by rewrite Hlen).
  destruct limit as [|fuel]; [lia|].
  destruct (recursive_backtracker_complete fuel [] d2 constraints sol)
    as [a Hsearch];
    [apply prefix_nil | lia | done | done | simpl; lia |].
  assert (recursive_backtracker_within (S fuel) [] d2 constraints
          = Return (a, true)) as Hwithin
    by (rewrite recursive_backtracker_within_fuel; by rewrite Hsearch).
  exists d1, d2, a. split_and!; [done..| | | |].
  - unfold solve_within. fold d0.
    by rewrite Hnode, bind_of_Return, Harc, bind_of_Return, Hwithin.
  - apply recursive_backtracker_sound, is_complete_true in Hsearch as [? _].
    lia.
  - intros v (i & Hi)%list_elem_of_lookup_1.
    destruct (recursive_backtracker_extends _ _ _ _ _ Hsearch) as [_ Hdom].
    destruct (Hdom i v) as (dom2 & Hdom2 & Hv2); [simpl; lia | done |].
    by eapply filtered_dates_from_range.
  - by apply recursive_backtracker_sound, is_complete_true in Hsearch
      as [_ ?].
Qed.

(** C3. Postcondition of [arc_consistency]: when it returns, every binary
    constraint is supported in both directions, that is every date left in
    the tail domain has a partner in the head domain. *)
Theorem arc_consistency_postcondition sched domains constraints domains' :
  arc_consistency sched domains constraints = Return domains' →
  arc_consistent domains' constraints.
Proof.
  intros Hrun. apply arc_consistent_arcs. intros arc Harc.
  by eapply arc_consistency_Return_arcs.
Qed.

(** C4. [node_consistency] prunes exactly: on sets it returns, and a date of
    the domain of variable [i] stays if and only if every unary constraint on
    [i] holds of it; no date is added. *)
Theorem node_consistency_exact domains constraints :
  Forall NoDup domains →
  ∃ domains',
    node_consistency domains constraints = Return domains'
    ∧ length domains' = length domains
    ∧ ∀ i domain, domains !! i = Some domain →
        ∃ domain', domains' !! i = Some domain'
          ∧ ∀ v, v ∈ domain' ↔ v ∈ domain ∧ unary_ok constraints i v.
Proof.
  intros Hnd.
  destruct (node_consistency_from_total 0 (unary_of constraints) domains Hnd)
    as [domains' Hrun].
  change (node_consistency domains constraints = Return domains') in Hrun.
  exists domains'. split; [done|].
  apply node_consistency_Return in Hrun as ->.
  split; [by rewrite length_imap|].
  intros i domain Hi. rewrite list_lookup_imap, Hi. simpl.
  eexists. split; [done|]. intros v.
  rewrite list_elem_of_filter, violates_unary_ok. tauto.
Qed.

(** C5. [arc_consistency] terminates under every pop order: the worklist
    loop exits within its fuel, and more fuel gives the same outcome. *)
Theorem arc_consistency_terminates sched domains constraints :
  terminated (arc_consistency sched domains constraints)
  ∧ ∃ arcs, build_arcs constraints = Return arcs
      ∧ ∀ extra,
          ac3_loop (ac3_fuel domains arcs + extra) sched arcs arcs domains
          = arc_consistency sched domains constraints.
Proof.
  unfold arc_consistency.
  destruct (build_arcs_Return constraints) as (arcs & -> & Hnd & _). simpl.
  pose proof (ac3_loop_outcome (ac3_fuel domains arcs) sched arcs arcs domains
                Hnd (λ a Ha, Ha) (Nat.le_refl _)) as Hout.
  assert (terminated (ac3_loop (ac3_fuel domains arcs) sched arcs arcs
                        domains)) as Hterm
    by (by destruct (ac3_loop _ _ _ _ _)).
  split; [done|]. exists arcs. split; [done|].
  intros extra. by apply ac3_loop_more_fuel.
Qed.

(** C7. [Arc(c)] succeeds exactly on binary constraints, with the tail at
    [L_VAL] and the head at [R_VAL]; on any other constraint it raises
    ValueError. *)
Theorem Arc_init_error c :
  match Arc_init c with
  | Return arc =>
      arity c = 2 ∧ CONSTRAINT arc = c ∧ TAIL arc = L_VAL c
      ∧ R_VAL c = Some (HEAD arc)
  | Raise e => arity c ≠ 2 ∧ e = ValueError
  | OutOfFuel => False
  end.
Proof.
  unfold Arc_init. pose proof (R_VAL_int_iff_binary c) as Hbin.
  destruct (R_VAL c) as [r|].
  - split_and!; [apply Hbin; eauto | done..].
  - split; [|done]. intros Har. apply Hbin in Har as [r Hr]. done.
Qed.

(** C8. [arc_consistency] is idempotent: on arc-consistent domains, such as
    those a previous run on the same constraints returned, it returns the
    domains unchanged. *)
Theorem arc_consistency_idempotent sched domains constraints :
  arc_consistent domains constraints
  ∨ (∃ sched0 domains0,
       arc_consistency sched0 domains0 constraints = Return domains) →
  arc_consistency sched domains constraints = Return domains.
Proof.
  intros Hac.
  assert (arc_consistent domains constraints) as Hac'.
  { destruct Hac as [?|(sched0 & domains0 & Hrun)]; [done|].
    apply arc_consistent_arcs. intros arc Harc.
    by eapply arc_consistency_Return_arcs. }
  clear Hac. rename Hac' into Hac. unfold arc_consistency.
  destruct (build_arcs_Return constraints) as (arcs & -> & _ & Helem). simpl.
  apply ac3_loop_supported_id; [unfold ac3_fuel; lia|].
  intros a Ha%Helem.
  by apply (proj1 (arc_consistent_arcs domains constraints)).
Qed.

(** C9. Filtering is monotone: after either pass every variable keeps its
    domain or a part of it, and no date is added.  Pruning a domain to the
    empty set is an ordinary return of either pass: on sets,
    [node_consistency] returns and leaves empty every domain none of whose
    dates passes the unary constraints on its variable, and
    [arc_consistency], when the binary constraints mention variables that
    have a domain, returns and leaves empty both domains of a binary
    constraint that no pair of their dates satisfies. *)
Theorem filtering_monotone sched domains constraints :
  (∀ domains',
     node_consistency domains constraints = Return domains'
     ∨ arc_consistency sched domains constraints = Return domains' →
     length domains' = length domains
     ∧ ∀ i domain', domains' !! i = Some domain' →
         ∃ domain, domains !! i = Some domain
                   ∧ ∀ v, v ∈ domain' → v ∈ domain)
  ∧ (Forall NoDup domains →
     ∃ domains',
       node_consistency domains constraints = Return domains'
       ∧ ∀ i domain, domains !! i = Some domain →
           (∀ v, v ∈ domain → ¬ unary_ok constraints i v) →
           domains' !! i = Some [])
  ∧ (Forall NoDup domains →
     constraints_in_range (length domains) constraints →
     ∃ domains',
       arc_consistency sched domains constraints = Return domains'
       ∧ ∀ c r tail head,
           c ∈ constraints → R_VAL c = Some r →
           domains !! L_VAL c = Some tail → domains !! r = Some head →
           (∀ v w, v ∈ tail → w ∈ head →
                   is_satisfied_by_values c [v; w] = false) →
           domains' !! L_VAL c = Some [] ∧ domains' !! r = Some []).
Proof.
  split_and!.
  - intros domains' [Hnode|Harc]; apply shrinks_subset.
    + by eapply node_consistency_shrinks.
    + by eapply arc_consistency_shrinks.
  - intros Hnd.
    destruct (node_consistency_from_total 0 (unary_of constraints) domains
                Hnd) as [domains' Hrun].
    change (node_consistency domains constraints = Return domains') in Hrun.
    exists domains'. split; [done|].
    apply node_consistency_Return in Hrun as ->.
    intros i domain Hi Hnone. rewrite list_lookup_imap, Hi. simpl. f_equal.
    destruct (filter _ domain) as [|v kept] eqn:Hkept; [done|]. exfalso.
    assert (v ∈ filter (λ v, violates (unary_of constraints) i v = false)
                  domain) as Hv by (rewrite Hkept; left).
    apply list_elem_of_filter in Hv as [Hok%violates_unary_ok Hv].
    by apply (Hnone v).
  - intros Hnd Hrange.
    destruct (arc_consistency_total sched domains constraints Hnd Hrange)
      as [domains' Hrun].
    exists domains'. split; [done|].
    intros c r tail head Hc Hr Htail Hhead Hnone.
    assert (arity c = 2) as Har by (apply R_VAL_int_iff_binary; eauto).
    pose proof (arc_consistency_shrinks _ _ _ _ Hrun) as Hs.
    assert (arc_consistent domains' constraints) as Hac.
    { apply arc_consistent_arcs. intros arc Harc.
      by eapply arc_consistency_Return_arcs. }
    destruct (Hac c r Hc Har Hr)
      as [(tail' & head' & Htail' & Hhead' & Hfwd)
          (head2 & tail2 & Hhead2 & Htail2 & Hbwd)].
    assert (head2 = head') as -> by congruence.
    assert (tail2 = tail') as -> by congruence.
    destruct (shrinks_lookup _ _ _ _ Hs Htail') as (t & Ht & Hsubt).
    destruct (shrinks_lookup _ _ _ _ Hs Hhead') as (h & Hh & Hsubh).
    assert (t = tail) as -> by congruence.
    assert (h = head) as -> by congruence.
    assert (tail' = []) as ->.
    { destruct tail' as [|v tail']; [done|]. exfalso.
      destruct (Hfwd v) as (w & Hw & Hsat); [left|].
      rewrite Hnone in Hsat; [done | |].
      - eapply elem_of_sublist; [|exact Hsubt]. left.
      - eapply elem_of_sublist; [|exact Hsubh]. done. }
    split; [done|]. rewrite Hhead'. f_equal.
    destruct head' as [|w head']; [done|]. exfalso.
    destruct (Hbwd w) as (v & Hv & _); [left|]. by apply elem_of_nil in Hv.
Qed.

(** C10. The backtracker never indexes [domains] out of range: the call
    made by [solve] returns, and so does every call on an assignment that is
    no longer than [domains] and consistent when it is as long; whenever
    such an assignment is not complete, its length is a valid index. *)
Theorem backtracker_index_safe domains constraints :
  (∃ a found,
     recursive_backtracker (S (length domains)) [] domains constraints
     = Return (a, found))
  ∧ ∀ fuel assignment,
      length assignment ≤ length domains →
      (length assignment = length domains →
       all_satisfied constraints assignment = true) →
      length domains - length assignment ≤ fuel →
      (is_complete assignment domains constraints = false →
       length assignment < length domains)
      ∧ ∃ a found,
          recursive_backtracker fuel assignment domains constraints
          = Return (a, found).
Proof.
  split.
  - destruct (recursive_backtracker_safe (S (length domains)) [] domains
                constraints) as (a & found & Hrun & _);
      [simpl; lia | intros _; apply all_satisfied_nil | simpl; lia | eauto].
  - intros fuel a Hle Hfull Hfuel. split.
    + intros Hc. destruct (decide (length a = length domains)) as [Heq|];
        [|lia].
      rewrite (proj2 (is_complete_true a domains constraints)) in Hc;
        [done | auto].
    + destruct (recursive_backtracker_safe fuel a domains constraints)
        as (a' & found & Hrun & _); eauto.
Qed.

(** C6. [solve] never mutates the caller's [date_range], whatever the
    outcome: every set that existed before the call is unchanged after it.
    The domains it builds are [n_meetings] distinct new objects, none of them
    [date_range], each holding the dates of the range; pruning them in place
    gives the outcome of the solver on independent values. *)
Theorem solve_st_frame sched n_meetings (date_range : address) constraints
    (σ : store datetime) :
  date_range < length σ →
  ∃ (addresses : list address) (σ0 : store datetime),
    copy_domains n_meetings date_range σ = (Return addresses, σ0)
    ∧ length addresses = n_meetings ∧ NoDup addresses
    ∧ (date_range ∉ addresses)
    ∧ (∀ r, r ∈ addresses → set_at σ0 r = set_at σ date_range)
    ∧ ((solve_st sched n_meetings date_range constraints σ).1
       = solve sched n_meetings (set_at σ date_range) constraints)
    ∧ ∀ r, r < length σ →
        (solve_st sched n_meetings date_range constraints σ).2 !! r = σ !! r.
Proof.
  intros Hr.
  set (dr := set_at σ date_range).
  set (domains := seq (length σ) n_meetings : list address).
  set (σ0 := σ ++ replicate n_meetings dr).
  assert (∀ r, r ∈ domains → set_at σ0 r = dr) as Hcopies.
  { intros r [Hge Hlt]%elem_of_seq. unfold set_at, σ0.
    rewrite lookup_app_r by done.
    rewrite lookup_replicate_2 by lia. done. }
  assert (allocated domains σ0) as Hal.
  { split; [apply NoDup_seq|]. intros r [Hge Hlt]%elem_of_seq.
    unfold σ0. rewrite length_app, length_replicate. lia. }
  assert (contents σ0 domains = (λ _, dr) <$> seq 0 n_meetings) as Hcontents.
  { unfold contents. apply list_eq. intros i. rewrite !list_lookup_fmap.
    destruct (decide (i < n_meetings)) as [Hi|Hi].
    - unfold domains. rewrite !lookup_seq_lt by done. simpl.
      rewrite Hcopies; [done|]. apply elem_of_seq. lia.
    - unfold domains. by rewrite !lookup_seq_ge by lia. }
  exists domains, σ0.
  split_and!; [by apply copy_domains_spec | apply length_seq | apply NoDup_seq
              | intros [? _]%elem_of_seq; lia | done | |].
  - unfold solve_st. unfold mbind at 1, run_bind.
    rewrite copy_domains_spec by done. fold dr domains σ0.
    pose proof (node_consistency_agrees domains constraints σ0 Hal) as Hnode.
    unfold mbind at 1, run_bind.
    destruct (node_consistency_st domains constraints σ0) as [o1 σ1].
    destruct Hnode as (Hlen1 & _ & Hres1). simpl in Hlen1, Hres1.
    rewrite Hcontents in Hres1. unfold solve. fold dr.
    destruct (node_consistency _ constraints) as [d1|e|] eqn:Hd1;
      simpl in Hres1; [|by subst o1..].
    destruct Hres1 as [-> Hc1]. rewrite bind_of_Return.
    assert (allocated domains σ1) as Hal1
      by (destruct Hal; split; [done|by rewrite Hlen1]).
    pose proof (arc_consistency_agrees sched domains constraints σ1 Hal1)
      as Harc.
    unfold mbind at 1, run_bind.
    destruct (arc_consistency_st sched domains constraints σ1) as [o2 σ2].
    destruct Harc as (Hlen2 & _ & Hres2). simpl in Hlen2, Hres2.
    rewrite Hc1 in Hres2.
    destruct (arc_consistency sched d1 constraints) as [d2|e|] eqn:Hd2;
      simpl in Hres2; [|by subst o2..].
    destruct Hres2 as [-> Hc2]. rewrite bind_of_Return.
    unfold mbind at 1, run_bind. rewrite recursive_backtracker_st_eq, Hc2.
    assert (length domains = length d2) as ->
      by (rewrite <- Hc2; unfold contents; by rewrite length_fmap).
    by destruct (recursive_backtracker _ [] d2 constraints)
      as [[a found]|e|].
  - intros r Hlt.
    assert (r ∉ domains) as Hnot by (intros [? _]%elem_of_seq; lia).
    assert (σ0 !! r = σ !! r) as <- by (unfold σ0; by rewrite lookup_app_l).
    unfold solve_st. unfold mbind at 1, run_bind.
    rewrite copy_domains_spec by done. fold dr domains σ0.
    pose proof (node_consistency_agrees domains constraints σ0 Hal) as Hnode.
    unfold mbind at 1, run_bind.
    destruct (node_consistency_st domains constraints σ0) as [o1 σ1].
    destruct Hnode as (Hlen1 & Hframe1 & _). simpl in Hlen1, Hframe1.
    rewrite <- Hframe1 by done.
    destruct o1 as [[]|e|]; [|done..].
    assert (allocated domains σ1) as Hal1
      by (destruct Hal; split; [done|by rewrite Hlen1]).
    pose proof (arc_consistency_agrees sched domains constraints σ1 Hal1)
      as Harc.
    unfold mbind at 1, run_bind.
    destruct (arc_consistency_st sched domains constraints σ1) as [o2 σ2].
    destruct Harc as (Hlen2 & Hframe2 & _). simpl in Hlen2, Hframe2.
    rewrite <- Hframe2 by done.
    destruct o2 as [[]|e|]; [|done..].
    unfold mbind at 1, run_bind. rewrite recursive_backtracker_st_eq.
    by destruct (recursive_backtracker _ [] _ constraints)
      as [[a found]|e|].
Qed.

End Claims.

(** * Further properties of the solver *)

Section Behaviour.

Context {datetime : Type} `{EqDecision datetime}.
Context {C : Type} `{DateConstraint datetime C}.

Implicit Types (c : C) (constraints : list C).
Implicit Types (date : datetime) (assignment sol : list datetime).
Implicit Types (domain : list datetime) (domains : list (list datetime)).
Implicit Types (arc : @Arc C) (arcs original_arcs : list (@Arc C)).
Implicit Types (d fam : list (list datetime)).

(** ** Exceptions of the filtering passes *)

(** On sets, revising an arc raises nothing but IndexError, and only when one
    of its variables has no domain. *)
Lemma remove_inconsistent_values_outcome domains arc :
  Forall NoDup domains →
  match remove_inconsistent_values domains arc with
  | Return _ => TAIL arc < length domains
  | Raise e =>
      e = IndexError
      ∧ ¬ (TAIL arc < length domains ∧ HEAD arc < length domains)
  | OutOfFuel => False
  end.
Proof.
  intros Hnd.
  destruct (decide (TAIL arc < length domains)) as [Ht|Ht].
  - destruct (decide (HEAD arc < length domains)) as [Hh|Hh].
    + destruct (remove_inconsistent_values_total domains arc Hnd Ht Hh)
        as (d' & r & ->). done.
    + unfold remove_inconsistent_values, list_index.
      destruct (lookup_lt_is_Some_2 domains (TAIL arc) Ht) as [tail ->].
      simpl. destruct tail as [|x tail]; simpl; [done|].
      unfold list_index.
      rewrite (lookup_ge_None_2 domains (HEAD arc)) by lia. simpl.
      split; [done | tauto].
  - unfold remove_inconsistent_values, list_index.
    rewrite (lookup_ge_None_2 domains (TAIL arc)) by lia. simpl.
    split; [done | tauto].
Qed.

Lemma remove_inconsistent_values_tail domains arc domains' removed :
  remove_inconsistent_values domains arc = Return (domains', removed) →
  TAIL arc < length domains.
Proof.
  unfold remove_inconsistent_values.
  intros (tail & Ht%list_index_Return & _)%bind_Return.
  by eapply lookup_lt_Some.
Qed.

Lemma ac3_loop_raises fuel sched original_arcs arcs domains e :
  Forall NoDup domains →
  ac3_loop fuel sched original_arcs arcs domains = Raise e →
  e = IndexError.
Proof.
  revert sched arcs domains.
  induction fuel as [|fuel IH]; intros sched arcs domains Hnd.
  - destruct arcs; simpl; done.
  - destruct (decide (0 < length arcs)) as [Hpos|Hpos];
      [|destruct arcs; [by rewrite ac3_loop_nil | simpl in Hpos; lia]].
    rewrite ac3_loop_cons by done.
    destruct (set_pop_nonempty (sched 0) arcs Hpos) as (arc & arcs' & ->).
    rewrite bind_of_Return.
    pose proof (remove_inconsistent_values_outcome domains arc Hnd) as Hout.
    destruct (remove_inconsistent_values domains arc)
      as [[d' removed]|e'|] eqn:Hrev; simpl; [| |done].
    + apply IH. eapply shrinks_NoDup; [|done].
      by eapply remove_inconsistent_values_shrinks.
    + intros [= <-]. by destruct Hout.
Qed.

(** When the loop returns from the full worklist, every arc was revised, so
    the tail of every arc has a domain. *)
Lemma ac3_loop_tails fuel sched original_arcs arcs domains domains' :
  (∀ a, a ∈ original_arcs → a ∉ arcs → TAIL a < length domains) →
  ac3_loop fuel sched original_arcs arcs domains = Return domains' →
  ∀ a, a ∈ original_arcs → TAIL a < length domains.
Proof.
  intros Hinit Hrun a Ha.
  refine (proj2 (ac3_loop_invariant
            (λ work d,
               length d = length domains
               ∧ ∀ a, a ∈ original_arcs → a ∉ work → TAIL a < length domains)
            _ _ _ _ _ _ _ (conj eq_refl Hinit) Hrun) a Ha _);
    [|apply not_elem_of_nil].
  clear Hinit Hrun a Ha.
  intros work d i arc d' removed [Hlen Htails] Hi Hrev.
  pose proof (remove_inconsistent_values_shrinks _ _ _ _ Hrev) as Hs.
  apply Forall2_length in Hs. split; [congruence|].
  intros a Ha Hnot.
  assert (a ∉ delete i work) as Hdel.
  { intros Hin. apply Hnot. destruct removed; [|done].
    apply requeue_elem. by left. }
  destruct (decide (a = arc)) as [->|Hne].
  - rewrite <- Hlen. by eapply remove_inconsistent_values_tail.
  - apply Htails; [done|]. intros Hin.
    by destruct (elem_of_delete_or _ _ _ _ Hi Hin).
Qed.

Lemma arc_consistency_Return_in_range sched domains constraints domains' :
  arc_consistency sched domains constraints = Return domains' →
  constraints_in_range (length domains) constraints.
Proof.
  unfold arc_consistency. intros (arcs & Hbuild & Hrun)%bind_Return.
  destruct (build_arcs_Return constraints) as (arcs' & Hbuild' & _ & Helem).
  assert (arcs' = arcs) as -> by congruence.
  pose proof (ac3_loop_tails _ _ _ _ _ _ (λ a Ha Hn, False_ind _ (Hn Ha)) Hrun)
    as Htails.
  intros c r Hc Hr.
  assert (arity c = 2) as Har by (apply R_VAL_int_iff_binary; eauto).
  split.
  - apply (Htails (mkArc c (L_VAL c) r)), Helem.
    exists c, r. split_and!; auto.
  - apply (Htails (mkArc (get_reverse c) r (L_VAL c))), Helem.
    exists c, r. split_and!; auto.
Qed.

Lemma arc_consistency_Raise sched domains constraints e :
  Forall NoDup domains →
  arc_consistency sched domains constraints = Raise e →
  e = IndexError ∧ ¬ constraints_in_range (length domains) constraints.
Proof.
  intros Hnd Hrun. split.
  - unfold arc_consistency in Hrun.
    destruct (build_arcs_Return constraints) as (arcs & Hb & _).
    rewrite Hb, bind_of_Return in Hrun. by eapply ac3_loop_raises.
  - intros Hrange.
    destruct (arc_consistency_total sched domains constraints Hnd Hrange)
      as [d' Hd']. congruence.
Qed.

Lemma arc_consistency_has_fuel sched domains constraints :
  arc_consistency sched domains constraints ≠ OutOfFuel.
Proof.
  intros Hrun. unfold arc_consistency in Hrun.
  destruct (build_arcs_Return constraints) as (arcs & Hb & Harcs & _).
  rewrite Hb, bind_of_Return in Hrun.
  pose proof (ac3_loop_outcome (ac3_fuel domains arcs) sched arcs arcs
                domains Harcs (λ a Ha, Ha) (Nat.le_refl _)) as Hout.
  by rewrite Hrun in Hout.
Qed.

(** X1. On sets, [arc_consistency] returns exactly when every binary
    constraint mentions variables that have a domain; otherwise it raises
    IndexError, and it never raises anything else. *)
Theorem arc_consistency_outcome sched domains constraints :
  Forall NoDup domains →
  match arc_consistency sched domains constraints with
  | Return _ => constraints_in_range (length domains) constraints
  | Raise e =>
      e = IndexError
      ∧ ¬ constraints_in_range (length domains) constraints
  | OutOfFuel => False
  end.
Proof.
  intros Hnd.
  destruct (arc_consistency sched domains constraints) as [d'|e|] eqn:Hrun.
  - by eapply arc_consistency_Return_in_range.
  - by eapply arc_consistency_Raise.
  - by eapply arc_consistency_has_fuel.
Qed.

(** Unless it raises RecursionError, [solve] under the recursion limit
    behaves as [solve] on a stack that is deep enough. *)
Lemma solve_within_unbounded limit sched n_meetings date_range constraints :
  solve_within limit sched n_meetings date_range constraints
  ≠ Raise RecursionError →
  solve_within limit sched n_meetings date_range constraints
  = solve sched n_meetings date_range constraints.
Proof.
  unfold solve_within, solve.
  destruct (node_consistency _ constraints) as [d1|e|];
    [rewrite !bind_of_Return | done..].
  destruct (arc_consistency sched d1 constraints) as [d2|e|];
    [rewrite !bind_of_Return | done..].
  destruct (recursive_backtracker_within_safe limit [] d2 constraints)
    as [(a & found & -> & Hfuel)|[-> _]];
    [simpl; lia | intros _; apply all_satisfied_nil | | done].
  intros _. rewrite Hfuel by (simpl; lia). done.
Qed.


(** ** What the search returns *)

(** X3. What [recursive_backtracker] answers: on success the assignment is
    complete, extends the one it was given and takes the date of every
    further variable from that variable's domain; on failure the assignment
    is as it was at the call. *)
Theorem recursive_backtracker_result fuel assignment domains constraints
    a' found :
  recursive_backtracker fuel assignment domains constraints
  = Return (a', found) →
  if found
  then assignment `prefix_of` a'
       ∧ is_complete a' domains constraints = true
       ∧ ∀ i v, length assignment ≤ i → a' !! i = Some v →
           ∃ domain, domains !! i = Some domain ∧ v ∈ domain
  else a' = assignment.
Proof.
  destruct found; intros Hrun.
  - destruct (recursive_backtracker_extends _ _ _ _ _ Hrun) as [Hpre Hdom].
    split_and!; [done | by eapply recursive_backtracker_sound | done].
  - by eapply recursive_backtracker_restores.
Qed.

Lemma solve_Return sched n_meetings date_range constraints result :
  solve sched n_meetings date_range constraints = Return result →
  ∃ d1 d2 a found,
    node_consistency ((λ _, date_range) <$> seq 0 n_meetings) constraints
    = Return d1
    ∧ arc_consistency sched d1 constraints = Return d2
    ∧ recursive_backtracker (S (length d2)) [] d2 constraints
      = Return (a, found)
    ∧ result = (if found then Some a else None)
    ∧ length d1 = n_meetings ∧ length d2 = n_meetings.
Proof.
  unfold solve. intros (d1 & Hnode & Hrun)%bind_Return.
  apply bind_Return in Hrun as (d2 & Harc & Hrun).
  apply bind_Return in Hrun as ([a found] & Hsearch & [= <-]).
  exists d1, d2, a, found. split_and!; [done..| |].
  - apply node_consistency_shrinks, Forall2_length in Hnode.
    by rewrite length_fmap, length_seq in Hnode.
  - apply arc_consistency_shrinks, Forall2_length in Harc.
    apply node_consistency_shrinks, Forall2_length in Hnode.
    rewrite length_fmap, length_seq in Hnode. congruence.
Qed.

(** X4. Every date of the assignment that [solve] returns is a date of
    [date_range]. *)
Theorem solve_dates_from_range sched n_meetings date_range constraints
    assignment :
  solve sched n_meetings date_range constraints = Return (Some assignment) →
  ∀ v, v ∈ assignment → v ∈ date_range.
Proof.
  intros (d1 & d2 & a & found & Hnode & Harc & Hsearch & Hres & _)%solve_Return.
  destruct found; [|done]. injection Hres as ->.
  intros v (i & Hi)%list_elem_of_lookup_1.
  destruct (recursive_backtracker_extends _ _ _ _ _ Hsearch) as [_ Hdom].
  destruct (Hdom i v) as (dom2 & Hdom2 & Hv2); [simpl; lia | done |].
  by eapply filtered_dates_from_range.
Qed.

(** X5. [None] is always right: when [solve] returns [None], no assignment
    of [n_meetings] dates of the range satisfies every constraint. *)
Theorem solve_None_unsatisfiable sched n_meetings date_range constraints :
  solve sched n_meetings date_range constraints = Return None →
  ¬ ∃ sol, length sol = n_meetings ∧ (∀ v, v ∈ sol → v ∈ date_range)
           ∧ all_satisfied constraints sol = true.
Proof.
  intros (d1 & d2 & a & found & Hnode & Harc & Hsearch & Hres & Hl1 & Hl2)
    %solve_Return.
  destruct found; [done|]. intros (sol & Hlen & Hin & Hsat).
  assert (holds_solution sol ((λ _, date_range) <$> seq 0 n_meetings))
    as Hsol0.
  { intros i v Hv. exists date_range. split.
    - rewrite list_lookup_fmap, lookup_seq_lt; [done|].
      apply lookup_lt_Some in Hv. lia.
    - by eapply Hin, list_elem_of_lookup_2. }
  assert (holds_solution sol d1) as Hsol1
    by (by eapply node_consistency_keeps_solution).
  assert (holds_solution sol d2) as Hsol2.
  { eapply arc_consistency_keeps_solution; [done| |done..].
    rewrite Hlen, <- Hl1. by eapply arc_consistency_Return_in_range. }
  destruct (recursive_backtracker_complete (S (length d2)) [] d2
              constraints sol) as [a' Hfound];
    [apply prefix_nil | lia | done | done | simpl; lia | congruence].
Qed.

(** X6. With no meeting to schedule and no binary constraint, [solve]
    returns the empty assignment, whatever the range. *)
Theorem solve_no_meeting sched date_range constraints :
  (∀ c, c ∈ constraints → R_VAL c = None) →
  solve sched 0 date_range constraints = Return (Some []).
Proof.
  intros Hunary. unfold solve.
  change (node_consistency ((λ _, date_range) <$> seq 0 0) constraints)
    with (Return [] : outcome (list (list datetime))).
  rewrite bind_of_Return.
  destruct (arc_consistency_total sched [] constraints) as [d2 Harc];
    [constructor | intros c r Hc Hr; rewrite (Hunary c Hc) in Hr; done |].
  rewrite Harc, bind_of_Return.
  apply arc_consistency_shrinks, Forall2_length in Harc.
  destruct d2; [|done]. simpl.
  unfold is_complete. simpl. by rewrite all_satisfied_nil.
Qed.

Lemma solve_total sched n_meetings date_range constraints :
  NoDup date_range →
  constraints_in_range n_meetings constraints →
  ∃ result, solve sched n_meetings date_range constraints = Return result.
Proof.
  intros Hnd Hrange. unfold solve.
  set (d0 := (λ _, date_range) <$> seq 0 n_meetings).
  assert (length d0 = n_meetings) as Hlen0
    by (unfold d0; by rewrite length_fmap, length_seq).
  assert (Forall NoDup d0) as Hnd0.
  { apply Forall_forall. intros d (y & -> & _)%list_elem_of_fmap. done. }
  destruct (node_consistency_from_total 0 (unary_of constraints) d0 Hnd0)
    as [d1 Hnode].
  change (node_consistency d0 constraints = Return d1) in Hnode.
  rewrite Hnode, bind_of_Return.
  pose proof (node_consistency_shrinks _ _ _ Hnode) as Hs1.
  pose proof (Forall2_length _ _ _ Hs1) as Hlen1.
  destruct (arc_consistency_total sched d1 constraints) as [d2 Harc];
    [by eapply shrinks_NoDup | by rewrite Hlen1, Hlen0 |].
  rewrite Harc, bind_of_Return.
  destruct (recursive_backtracker_safe (S (length d2)) [] d2 constraints)
    as (a & found & -> & _);
    [simpl; lia | intros _; apply all_satisfied_nil | simpl; lia |].
  rewrite bind_of_Return. eauto.
Qed.

(** X7. With an empty range and at least one meeting, [solve] returns
    [None] as soon as it returns, that is when the binary constraints mention
    meetings below [n_meetings] only. *)
Theorem solve_empty_range sched n_meetings constraints :
  0 < n_meetings →
  constraints_in_range n_meetings constraints →
  solve sched n_meetings [] constraints = Return None.
Proof.
  intros Hpos Hrange.
  destruct (solve_total sched n_meetings [] constraints NoDup_nil_2 Hrange)
    as [[a|] Hrun]; [exfalso | done].
  pose proof Hrun
    as (d1 & d2 & a' & found & Hnode & Harc & Hsearch & Hres & _ & Hl2)
         %solve_Return.
  destruct found; [|done]. injection Hres as <-.
  destruct (recursive_backtracker_extends _ _ _ _ _ Hsearch) as [_ Hdom].
  apply recursive_backtracker_sound, is_complete_true in Hsearch as [Hlen _].
  destruct (lookup_lt_is_Some_2 a 0) as [v Hv]; [lia|].
  destruct (Hdom 0 v) as (dom2 & Hdom2 & Hv2); [simpl; lia | done |].
  assert (v ∈ @nil datetime) as Hv'
    by (by eapply filtered_dates_from_range).
  by apply elem_of_nil in Hv'.
Qed.

(** ** Arc consistency computes the largest arc-consistent domains *)

Lemma shrinks_within d' d : shrinks d' d → within d' d.
Proof.
  intros Hs. split; [by eapply Forall2_length|]. intros i ei v Hi Hv.
  destruct (shrinks_lookup _ _ _ _ Hs Hi) as (di & Hdi & Hsub).
  exists di. split; [done|]. by eapply elem_of_sublist.
Qed.

Lemma remove_inconsistent_values_keeps_within arc fam d d' removed :
  arc_supported fam arc → within fam d →
  remove_inconsistent_values d arc = Return (d', removed) →
  within fam d'.
Proof.
  intros (tailf & Htailf & Hsupf) Hin.
  apply (remove_inconsistent_values_preserves (within fam)); [done|].
  clear d Hin. intros d tail head v [Hlen Hd] Ht Hh Hv Hsup.
  split; [by rewrite length_insert|]. intros i ei u Hi Hu.
  destruct (Hd i ei u Hi Hu) as (di & Hdi & Hudi).
  destruct (decide (i = TAIL arc)) as [->|Hne];
    [|rewrite list_lookup_insert_ne by done; eauto].
  rewrite list_lookup_insert_eq by (by eapply lookup_lt_Some).
  eexists. split; [done|]. assert (di = tail) as -> by congruence.
  assert (ei = tailf) as -> by congruence.
  apply list_elem_of_filter. split; [|done]. intros ->.
  destruct (Hsupf v Hu) as (headf & Hheadf & (w & Hw & Hsat)%supported_true).
  destruct (Hd _ _ w Hheadf Hw) as (head' & Hhead' & Hwin).
  assert (head' = head) as -> by congruence.
  assert (supported (CONSTRAINT arc) v head = true) as Hyes
    by (apply supported_true; eauto).
  congruence.
Qed.

Lemma arc_consistency_keeps_within sched domains constraints domains' fam :
  arc_consistency sched domains constraints = Return domains' →
  within fam domains → arc_consistent fam constraints →
  within fam domains'.
Proof.
  unfold arc_consistency. intros (arcs & Hbuild & Hrun)%bind_Return.
  intros Hin Hac.
  destruct (build_arcs_Return constraints) as (arcs' & Hbuild' & _ & Helem).
  assert (arcs' = arcs) as -> by congruence.
  refine (proj2 (ac3_loop_invariant
            (λ work d, (∀ a, a ∈ work → a ∈ arcs) ∧ within fam d)
            _ _ _ _ _ _ _ (conj (λ a Ha, Ha) Hin) Hrun)).
  intros work d i arc d' removed [Hsub Hd] Hi Hrev.
  assert (arc ∈ arcs) as Harc by (by eapply Hsub, list_elem_of_lookup_2).
  split.
  - intros a Ha. destruct removed.
    + apply requeue_elem in Ha as [Ha|[Ha _]]; [|done].
      by eapply Hsub, list_elem_of_delete_inv.
    + by eapply Hsub, list_elem_of_delete_inv.
  - eapply remove_inconsistent_values_keeps_within; [|done..].
    apply (proj1 (arc_consistent_arcs fam constraints) Hac). by apply Helem.
Qed.

(** X8. [arc_consistency] removes no more than it must: whatever
    arc-consistent domains lie within the given ones lie within the domains
    it returns. *)
Theorem arc_consistency_greatest sched domains constraints domains' fam :
  arc_consistency sched domains constraints = Return domains' →
  within fam domains → arc_consistent fam constraints →
  within fam domains'
  ∧ within domains' domains ∧ arc_consistent domains' constraints.
Proof.
  intros Hrun Hin Hac. split_and!.
  - by eapply arc_consistency_keeps_within.
  - by eapply shrinks_within, arc_consistency_shrinks.
  - apply arc_consistent_arcs. intros arc Harc.
    by eapply arc_consistency_Return_arcs.
Qed.

Lemma sublist_NoDup_eq {A : Type} (l1 l2 l : list A) :
  NoDup l → l1 `sublist_of` l → l2 `sublist_of` l →
  (∀ x, x ∈ l1 ↔ x ∈ l2) → l1 = l2.
Proof.
  intros Hnd. revert l1 l2.
  induction Hnd as [|a l Ha Hnd IH]; intros l1 l2 H1 H2 Heq.
  - apply sublist_nil_r in H1 as ->. by apply sublist_nil_r in H2 as ->.
  - apply sublist_cons_r in H1 as [H1|(k1 & -> & H1)];
      apply sublist_cons_r in H2 as [H2|(k2 & -> & H2)].
    + by apply IH.
    + exfalso. apply Ha. eapply elem_of_sublist; [|exact H1].
      apply Heq. left.
    + exfalso. apply Ha. eapply elem_of_sublist; [|exact H2].
      apply Heq. left.
    + f_equal. apply IH; [done..|]. intros x.
      assert (∀ k, k `sublist_of` l → x ∈ k → x ≠ a) as Hne
        by (intros k Hk Hx ->; apply Ha; by eapply elem_of_sublist).
      specialize (Heq x). rewrite !elem_of_cons in Heq. split; intros Hx.
      * destruct (proj1 Heq (or_intror Hx)) as [->|?]; [|done].
        by destruct (Hne k1 H1 Hx).
      * destruct (proj2 Heq (or_intror Hx)) as [->|?]; [|done].
        by destruct (Hne k2 H2 Hx).
Qed.

Lemma arc_consistent_ext domains constraints constraints' :
  (∀ c, c ∈ constraints ↔ c ∈ constraints') →
  arc_consistent domains constraints → arc_consistent domains constraints'.
Proof. intros Hmem Hac c r Hc. apply Hac. by apply Hmem. Qed.

Lemma constraints_in_range_ext n constraints constraints' :
  (∀ c, c ∈ constraints ↔ c ∈ constraints') →
  constraints_in_range n constraints → constraints_in_range n constraints'.
Proof. intros Hmem Hrange c r Hc. apply Hrange. by apply Hmem. Qed.

Lemma arc_consistency_confluent s1 s2 domains constraints constraints'
    d1 d2 :
  (∀ c, c ∈ constraints ↔ c ∈ constraints') →
  Forall NoDup domains →
  arc_consistency s1 domains constraints = Return d1 →
  arc_consistency s2 domains constraints' = Return d2 →
  d1 = d2.
Proof.
  intros Hmem Hnd H1 H2.
  assert (∀ c, c ∈ constraints' ↔ c ∈ constraints) as Hmem'
    by (intros c; symmetry; apply Hmem).
  pose proof (arc_consistency_shrinks _ _ _ _ H1) as Hs1.
  pose proof (arc_consistency_shrinks _ _ _ _ H2) as Hs2.
  assert (arc_consistent d1 constraints) as Hac1
    by (apply arc_consistent_arcs; intros arc Harc;
        by eapply arc_consistency_Return_arcs).
  assert (arc_consistent d2 constraints') as Hac2
    by (apply arc_consistent_arcs; intros arc Harc;
        by eapply arc_consistency_Return_arcs).
  pose proof (arc_consistency_keeps_within _ _ _ _ _ H2
                (shrinks_within _ _ Hs1)
                (arc_consistent_ext _ _ _ Hmem Hac1)) as [Hlen H12].
  pose proof (arc_consistency_keeps_within _ _ _ _ _ H1
                (shrinks_within _ _ Hs2)
                (arc_consistent_ext _ _ _ Hmem' Hac2)) as [_ H21].
  apply list_eq_same_length with (length d1); [done | congruence |].
  intros i x1 x2 Hi Hx1 Hx2.
  destruct (shrinks_lookup _ _ _ _ Hs1 Hx1) as (x & Hx & Hsub1).
  destruct (shrinks_lookup _ _ _ _ Hs2 Hx2) as (x' & Hx' & Hsub2).
  assert (x' = x) as -> by congruence.
  apply (sublist_NoDup_eq x1 x2 x); [by eapply Forall_lookup_1 | done..|].
  intros v. split; intros Hv.
  - destruct (H12 i x1 v Hx1 Hv) as (y & Hy & Hvy). congruence.
  - destruct (H21 i x2 v Hx2 Hv) as (y & Hy & Hvy). congruence.
Qed.

Lemma arc_consistency_any_order s1 s2 domains constraints constraints' :
  (∀ c, c ∈ constraints ↔ c ∈ constraints') →
  Forall NoDup domains →
  arc_consistency s1 domains constraints
  = arc_consistency s2 domains constraints'.
Proof.
  intros Hmem Hnd.
  assert (∀ c, c ∈ constraints' ↔ c ∈ constraints) as Hmem'
    by (intros c; symmetry; apply Hmem).
  destruct (arc_consistency s1 domains constraints) as [d1|e1|] eqn:H1;
    destruct (arc_consistency s2 domains constraints') as [d2|e2|] eqn:H2;
    try (by destruct (arc_consistency_has_fuel _ _ _ H1));
    try (by destruct (arc_consistency_has_fuel _ _ _ H2)).
  - f_equal.
    exact (arc_consistency_confluent s1 s2 domains constraints constraints'
             d1 d2 Hmem Hnd H1 H2).
  - destruct (arc_consistency_Raise _ _ _ _ Hnd H2) as [_ []].
    apply arc_consistency_Return_in_range in H1.
    exact (constraints_in_range_ext _ constraints constraints' Hmem H1).
  - destruct (arc_consistency_Raise _ _ _ _ Hnd H1) as [_ []].
    apply arc_consistency_Return_in_range in H2.
    exact (constraints_in_range_ext _ constraints' constraints Hmem' H2).
  - destruct (arc_consistency_Raise _ _ _ _ Hnd H1) as [-> _].
    by destruct (arc_consistency_Raise _ _ _ _ Hnd H2) as [-> _].
Qed.

(** X9. The order in which arcs are popped does not matter: on sets, two
    pop orders give [arc_consistency] the same outcome, and [solve] the same
    answer. *)
Theorem pop_order_irrelevant s1 s2 constraints :
  (∀ domains,
     Forall NoDup domains →
     arc_consistency s1 domains constraints
     = arc_consistency s2 domains constraints)
  ∧ (∀ n_meetings date_range,
       NoDup date_range →
       solve s1 n_meetings date_range constraints
       = solve s2 n_meetings date_range constraints).
Proof.
  split; [intros domains; by apply arc_consistency_any_order|].
  intros n_meetings date_range Hnd. unfold solve.
  destruct (node_consistency _ constraints) as [d1| |] eqn:Hnode; [|done..].
  rewrite !bind_of_Return.
  rewrite (arc_consistency_any_order s1 s2 d1 constraints constraints);
    [done | done |].
  eapply shrinks_NoDup; [by eapply node_consistency_shrinks|].
  apply Forall_forall. intros d (y & -> & _)%list_elem_of_fmap. done.
Qed.

(** ** The two passes compose *)

Lemma prune_fold_fixed ucs index l domain :
  (∀ v, v ∈ l → violates ucs index v = false) →
  foldM (λ domain date, prune_date ucs index date domain) l domain
  = Return domain.
Proof.
  induction l as [|x l IH]; intros Hok; simpl; [done|].
  rewrite prune_date_spec, Hok by left. simpl.
  apply IH. intros v Hv. apply Hok. by right.
Qed.

Lemma node_consistency_from_fixed index ucs domains :
  (∀ i domain v, domains !! i = Some domain → v ∈ domain →
     violates ucs (index + i) v = false) →
  node_consistency_from index ucs domains = Return domains.
Proof.
  revert index. induction domains as [|domain rest IH]; intros index Hok;
    simpl; [done|].
  rewrite prune_fold_fixed.
  - rewrite bind_of_Return, IH; [done|].
    intros i dom v Hi Hv.
    replace (S index + i) with (index + S i) by lia. by eapply (Hok (S i)).
  - intros v Hv. rewrite <- (Nat.add_0_r index). by eapply (Hok 0).
Qed.

Lemma node_consistency_fixed domains constraints domains' fam :
  node_consistency domains constraints = Return domains' →
  shrinks fam domains' →
  node_consistency fam constraints = Return fam.
Proof.
  intros ->%node_consistency_Return Hs.
  apply node_consistency_from_fixed. intros i dom v Hi Hv.
  destruct (shrinks_lookup _ _ _ _ Hs Hi) as (dom' & Hdom' & Hsub).
  rewrite list_lookup_imap in Hdom'.
  destruct (domains !! i) as [dom0|]; [|done]. injection Hdom' as <-.
  eapply elem_of_sublist in Hv; [|done].
  by apply list_elem_of_filter in Hv as [Hv _].
Qed.

(** X10. [node_consistency] is idempotent: run on the domains it
    returned, it returns them unchanged. *)
Theorem node_consistency_idempotent domains constraints domains' :
  node_consistency domains constraints = Return domains' →
  node_consistency domains' constraints = Return domains'.
Proof.
  intros Hrun. eapply node_consistency_fixed; [done|apply shrinks_refl].
Qed.

(** X11. One round of the two passes is enough: after [node_consistency]
    then [arc_consistency], as [solve] runs them, either pass returns the
    domains unchanged. *)
Theorem filtering_reaches_fixpoint sched sched' domains constraints d1 d2 :
  node_consistency domains constraints = Return d1 →
  arc_consistency sched d1 constraints = Return d2 →
  node_consistency d2 constraints = Return d2
  ∧ arc_consistency sched' d2 constraints = Return d2.
Proof.
  intros Hnode Harc. split.
  - eapply node_consistency_fixed; [done|].
    by eapply arc_consistency_shrinks.
  - unfold arc_consistency.
    destruct (build_arcs_Return constraints) as (arcs & -> & _ & Helem).
    rewrite bind_of_Return.
    apply ac3_loop_supported_id; [unfold ac3_fuel; lia|].
    intros a Ha%Helem. by eapply arc_consistency_Return_arcs.
Qed.

(** ** Revising an arc between two variables *)

Lemma check_tail_date_step arc d removed x head tail :
  d !! HEAD arc = Some head → d !! TAIL arc = Some tail → x ∈ tail →
  check_tail_date arc (d, removed) x
  = if supported (CONSTRAINT arc) x head then Return (d, removed)
    else Return (<[TAIL arc := filter (λ y, y ≠ x) tail]> d, true).
Proof.
  intros Hh Ht Hx. unfold check_tail_date, list_index. rewrite Hh. simpl.
  fold (supported (CONSTRAINT arc) x head).
  destruct (supported (CONSTRAINT arc) x head); [done|].
  rewrite Ht. simpl. by rewrite set_remove_elem.
Qed.

Lemma check_fold_exact arc rest kept d removed head :
  TAIL arc ≠ HEAD arc → NoDup rest →
  d !! TAIL arc = Some (kept ++ rest) → d !! HEAD arc = Some head →
  (∀ v, v ∈ kept → supported (CONSTRAINT arc) v head = true) →
  foldM (check_tail_date arc) rest (d, removed)
  = Return (<[TAIL arc :=
               kept ++ filter (λ v, supported (CONSTRAINT arc) v head = true)
                              rest]> d,
            removed
            || negb (forallb (λ v, supported (CONSTRAINT arc) v head) rest)).
Proof.
  intros Hne. revert kept d removed.
  induction rest as [|x rest IH]; intros kept d removed Hnd Ht Hh Hkept.
  - simpl. rewrite orb_false_r. by rewrite list_insert_id.
  - apply NoDup_cons in Hnd as [Hx Hnd].
    change (foldM (check_tail_date arc) (x :: rest) (d, removed))
      with (check_tail_date arc (d, removed) x
            ≫= foldM (check_tail_date arc) rest).
    rewrite (check_tail_date_step arc d removed x head (kept ++ x :: rest))
      by (done || (apply elem_of_app; right; left)).
    simpl forallb.
    destruct (supported (CONSTRAINT arc) x head) eqn:Hsup;
      rewrite bind_of_Return.
    + rewrite (IH (kept ++ [x])); [| done | by rewrite <- app_assoc | done |].
      * rewrite filter_cons_True by done. by rewrite <- app_assoc.
      * intros v [Hv| ->%list_elem_of_singleton]%elem_of_app; auto.
    + assert (filter (λ y, y ≠ x) (kept ++ x :: rest) = kept ++ rest) as ->.
      { rewrite filter_app, filter_cons_False by (by intros ?).
        rewrite !filter_all; [done| |].
        - by intros v Hv ->.
        - intros v Hv ->. specialize (Hkept _ Hv). congruence. }
      assert (TAIL arc < length d) as Hlt by (by eapply lookup_lt_Some).
      rewrite (IH kept); [| done | by apply list_lookup_insert_eq
                          | by rewrite list_lookup_insert_ne | done].
      rewrite list_insert_insert_eq. simpl. rewrite orb_true_r.
      by rewrite filter_cons_False by congruence.
Qed.

(** X12. Revising an arc between two different variables: on a set, the
    tail domain keeps exactly its dates that have a support in the head
    domain, nothing else changes, and the answer tells whether a date was
    dropped. *)
Theorem remove_inconsistent_values_exact arc domains tail head :
  TAIL arc ≠ HEAD arc → NoDup tail →
  domains !! TAIL arc = Some tail → domains !! HEAD arc = Some head →
  remove_inconsistent_values domains arc
  = Return (<[TAIL arc :=
               filter (λ v, supported (CONSTRAINT arc) v head = true) tail]>
              domains,
            negb (forallb (λ v, supported (CONSTRAINT arc) v head) tail)).
Proof.
  intros Hne Hnd Ht Hh. unfold remove_inconsistent_values, list_index.
  rewrite Ht. simpl.
  rewrite (check_fold_exact arc tail [] domains false head Hne Hnd Ht Hh);
    [done|]. intros v Hv. by apply elem_of_nil in Hv.
Qed.

(** ** The search returns the first solution *)

(** The candidate loop stops at the first date whose subtree has a
    solution: no solution goes through a date tried before it. *)
Lemma try_dates_first rec constraints domains dates assignment a' :
  (∀ b b', rec b = Return (b', false) → b' = b) →
  (∀ x s, length s = length domains →
          all_satisfied constraints s = true →
          holds_solution s domains →
          assignment ++ [x] `prefix_of` s →
          ∃ b, rec (assignment ++ [x]) = Return (b, true)) →
  try_dates rec constraints dates assignment = Return (a', true) →
  ∃ l1 x l2,
    dates = l1 ++ x :: l2
    ∧ rec (assignment ++ [x]) = Return (a', true)
    ∧ ∀ s y, length s = length domains →
             all_satisfied constraints s = true →
             holds_solution s domains →
             assignment `prefix_of` s →
             s !! length assignment = Some y → y ∉ l1.
Proof.
  intros Hrestore Hcomplete.
  induction dates as [|z dates IH]; simpl; [done|].
  destruct (all_satisfied constraints (assignment ++ [z])) eqn:Hsat.
  - intros ([a2 found2] & Hcall & Hrun)%bind_Return. destruct found2.
    + injection Hrun as <-. exists [], z, dates. split_and!; [done..|].
      intros s y _ _ _ _ _. apply not_elem_of_nil.
    + apply Hrestore in Hcall as Heq. subst a2.
      rewrite list_pop_snoc, bind_of_Return in Hrun.
      destruct (IH Hrun) as (l1 & x & l2 & -> & Hrec & Hnot).
      exists (z :: l1), x, l2. split_and!; [done..|].
      intros s y Hlen Hs Hdom Hpre Hy [->|Hin]%elem_of_cons;
        [|by eapply Hnot].
      destruct (Hcomplete z s Hlen Hs Hdom) as [b Hb];
        [by apply prefix_snoc_lookup | congruence].
  - rewrite list_pop_snoc, bind_of_Return. intros Hrun.
    destruct (IH Hrun) as (l1 & x & l2 & -> & Hrec & Hnot).
    exists (z :: l1), x, l2. split_and!; [done..|].
    intros s y Hlen Hs Hdom Hpre Hy [->|Hin]%elem_of_cons;
      [|by eapply Hnot].
    rewrite (all_satisfied_prefix constraints (assignment ++ [z]) s) in Hsat;
      [done | by apply prefix_snoc_lookup | done].
Qed.

Lemma prefix_take {A : Type} (l k : list A) :
  l `prefix_of` k → take (length l) k = l.
Proof. intros [q ->]. apply take_app_length. Qed.

(** Among the solutions that extend the assignment, the search returns the
    first in the order in which it tries the dates of each domain. *)
Lemma recursive_backtracker_first fuel assignment domains constraints a' s :
  recursive_backtracker fuel assignment domains constraints
  = Return (a', true) →
  length domains - length assignment ≤ fuel →
  assignment `prefix_of` s →
  length s = length domains →
  all_satisfied constraints s = true →
  holds_solution s domains →
  s = a'
  ∨ ∃ k x y dates,
      take k s = take k a' ∧ a' !! k = Some x ∧ s !! k = Some y
      ∧ domains !! k = Some dates ∧ tried_first dates x y.
Proof.
  intros Hrun Hfuel Hpre Hlen Hsat Hdom.
  revert assignment a' Hrun Hfuel Hpre.
  induction fuel as [|fuel IH]; intros a a' Hrun Hfuel Hpre;
    simpl in Hrun;
    destruct (is_complete a domains constraints) eqn:Hc; try done;
    try (injection Hrun as <-; left;
         apply is_complete_true in Hc as [Hla _];
         symmetry; apply prefix_length_eq; [done | lia]).
  apply bind_Return in Hrun as (dates & Hdates%list_index_Return & Hrun).
  assert (length a < length s) as Hlt.
  { pose proof (prefix_length _ _ Hpre).
    destruct (decide (length a = length s)) as [Heq|]; [|lia].
    apply prefix_length_eq in Hpre; [|lia]. subst a.
    rewrite (proj2 (is_complete_true s domains constraints)) in Hc;
      [done | by split]. }
  destruct (lookup_lt_is_Some_2 s (length a) Hlt) as [y Hy].
  apply (try_dates_first _ _ domains) in Hrun
    as (l1 & x & l2 & -> & Hrec & Hnot).
  - destruct (recursive_backtracker_extends _ _ _ _ _ Hrec) as [Hpre' _].
    assert (a' !! length a = Some x) as Hx.
    { eapply prefix_lookup_Some; [|done]. by apply list_lookup_middle. }
    destruct (decide (y = x)) as [->|Hne].
    + apply (IH (a ++ [x]) a' Hrec);
        [rewrite length_app; simpl; lia | by apply prefix_snoc_lookup].
    + right. exists (length a), x, y, (l1 ++ x :: l2).
      split_and!; [|done..|].
      * rewrite (prefix_take a s Hpre). symmetry. apply prefix_take.
        trans (a ++ [x]); [by apply prefix_app_r | done].
      * exists l1, l2. split_and!; [done | by eapply Hnot |].
        destruct (Hdom _ _ Hy) as (dates & Hd & Hin).
        assert (dates = l1 ++ x :: l2) as -> by congruence.
        apply elem_of_app in Hin as [Hin|[->|Hin]%elem_of_cons];
          [|done..].
        exfalso. by eapply Hnot.
  - intros b b'. apply recursive_backtracker_restores.
  - intros z s' Hlen' Hsat' Hdom' Hpre'.
    eapply recursive_backtracker_complete; [done..|].
    rewrite length_app. simpl. lia.
Qed.

Lemma try_dates_mono rec rec' constraints dates assignment result :
  (∀ b r, rec b = Return r → rec' b = Return r) →
  try_dates rec constraints dates assignment = Return result →
  try_dates rec' constraints dates assignment = Return result.
Proof.
  intros Hrec. revert assignment.
  induction dates as [|z dates IH]; intros assignment; simpl; [done|].
  destruct (all_satisfied constraints (assignment ++ [z])).
  - intros ([a2 found2] & Hcall & Hrun)%bind_Return.
    rewrite (Hrec _ _ Hcall), bind_of_Return. destruct found2; [done|].
    apply bind_Return in Hrun as (a3 & Hpop & Hrun).
    rewrite Hpop, bind_of_Return. by apply IH.
  - intros (a3 & Hpop & Hrun)%bind_Return.
    rewrite Hpop, bind_of_Return. by apply IH.
Qed.

(** A result of the search does not depend on the recursion bound. *)
Lemma recursive_backtracker_more_fuel fuel fuel' assignment domains
    constraints result :
  fuel ≤ fuel' →
  recursive_backtracker fuel assignment domains constraints = Return result →
  recursive_backtracker fuel' assignment domains constraints = Return result.
Proof.
  revert fuel' assignment result.
  induction fuel as [|fuel IH]; intros fuel' a result Hle Hrun;
    destruct fuel' as [|fuel']; simpl in *;
    destruct (is_complete a domains constraints); try done; try lia.
  apply bind_Return in Hrun as (dates & Hdates & Hrun).
  rewrite Hdates, bind_of_Return.
  eapply try_dates_mono; [|done].
  intros b r. apply IH. lia.
Qed.

(** X13. The search returns the first solution in the order it tries the
    dates: any other complete assignment that extends the given one with
    dates of the domains and satisfies the constraints agrees with the
    returned one up to some meeting, for which the returned date comes
    earlier in the iteration of that meeting's domain. *)
Theorem backtracker_first_solution fuel assignment domains constraints a' s :
  recursive_backtracker fuel assignment domains constraints
  = Return (a', true) →
  assignment `prefix_of` s →
  length s = length domains →
  all_satisfied constraints s = true →
  holds_solution s domains →
  s = a'
  ∨ ∃ k x y dates,
      take k s = take k a' ∧ a' !! k = Some x ∧ s !! k = Some y
      ∧ domains !! k = Some dates ∧ tried_first dates x y.
Proof.
  intros Hrun Hpre Hlen Hsat Hdom.
  apply (recursive_backtracker_more_fuel fuel (fuel + length domains))
    in Hrun; [|lia].
  eapply recursive_backtracker_first; [done | lia | done..].
Qed.

(** ** The order of the constraint set *)

Lemma all_satisfied_ext constraints constraints' assignment :
  (∀ c, c ∈ constraints ↔ c ∈ constraints') →
  all_satisfied constraints assignment
  = all_satisfied constraints' assignment.
Proof.
  intros Hmem.
  destruct (all_satisfied constraints assignment) eqn:H1;
    destruct (all_satisfied constraints' assignment) eqn:H2; try done.
  - rewrite all_satisfied_true in H1.
    rewrite <- H2. symmetry. apply all_satisfied_true.
    intros c Hc. by apply H1, Hmem.
  - rewrite all_satisfied_true in H2.
    rewrite <- H1. apply all_satisfied_true.
    intros c Hc. by apply H2, Hmem.
Qed.

Lemma violates_ext ucs ucs' index v :
  (∀ c, c ∈ ucs ↔ c ∈ ucs') →
  violates ucs index v = violates ucs' index v.
Proof.
  intros Hmem.
  destruct (violates ucs index v) eqn:H1;
    destruct (violates ucs' index v) eqn:H2; try done.
  - rewrite violates_false in H2. rewrite <- H1.
    apply violates_false. intros c Hc. by apply H2, Hmem.
  - rewrite violates_false in H1. rewrite <- H2. symmetry.
    apply violates_false. intros c Hc. by apply H1, Hmem.
Qed.

Lemma foldM_ext {A S : Type} (body body' : S → A → outcome S)
    (xs : list A) (s : S) :
  (∀ s x, body s x = body' s x) → foldM body xs s = foldM body' xs s.
Proof.
  intros Hbody. revert s. induction xs as [|x xs IH]; intros s; simpl;
    [done|].
  rewrite Hbody. destruct (body' s x); simpl; [apply IH | done..].
Qed.

Lemma node_consistency_ext domains constraints constraints' :
  (∀ c, c ∈ constraints ↔ c ∈ constraints') →
  node_consistency domains constraints
  = node_consistency domains constraints'.
Proof.
  intros Hmem.
  assert (∀ c, c ∈ unary_of constraints ↔ c ∈ unary_of constraints')
    as Hucs.
  { intros c. rewrite !unary_of_elem. by rewrite Hmem. }
  change (node_consistency_from 0 (unary_of constraints) domains
          = node_consistency_from 0 (unary_of constraints') domains).
  generalize 0.
  induction domains as [|d ds IH]; intros index; simpl; [done|].
  rewrite (foldM_ext _ (λ domain date,
             prune_date (unary_of constraints') index date domain)).
  - by rewrite IH.
  - intros dd x. rewrite !prune_date_spec. by rewrite (violates_ext _ _ _ _ Hucs).
Qed.

Lemma try_dates_ext rec rec' constraints constraints' dates assignment :
  (∀ b, rec b = rec' b) →
  (∀ b, all_satisfied constraints b = all_satisfied constraints' b) →
  try_dates rec constraints dates assignment
  = try_dates rec' constraints' dates assignment.
Proof.
  intros Hrec Hsat. revert assignment.
  induction dates as [|x dates IH]; intros a; simpl; [done|].
  rewrite Hsat, Hrec.
  destruct (all_satisfied constraints' (a ++ [x])).
  - destruct (rec' (a ++ [x])) as [[a2 found]| |]; simpl; [|done..].
    destruct found; [done|].
    destruct (list_pop a2); simpl; [apply IH | done..].
  - destruct (list_pop (a ++ [x])); simpl; [apply IH | done..].
Qed.

Lemma recursive_backtracker_ext fuel assignment domains constraints
    constraints' :
  (∀ b, all_satisfied constraints b = all_satisfied constraints' b) →
  recursive_backtracker fuel assignment domains constraints
  = recursive_backtracker fuel assignment domains constraints'.
Proof.
  intros Hsat. revert assignment.
  induction fuel as [|fuel IH]; intros a; simpl;
    (replace (is_complete a domains constraints')
       with (is_complete a domains constraints)
       by (unfold is_complete; by rewrite Hsat));
    destruct (is_complete a domains constraints); try done.
  destruct (list_index domains (length a)); simpl; [|done..].
  by apply try_dates_ext.
Qed.

(** X14. The constraints form a set: two lists of the same constraints, in
    any order and with or without repetitions, give [solve] the same
    answer. *)
Theorem solve_constraint_order s1 s2 n_meetings date_range constraints
    constraints' :
  (∀ c, c ∈ constraints ↔ c ∈ constraints') →
  NoDup date_range →
  solve s1 n_meetings date_range constraints
  = solve s2 n_meetings date_range constraints'.
Proof.
  intros Hmem Hnd. unfold solve.
  rewrite (node_consistency_ext _ constraints constraints' Hmem).
  destruct (node_consistency _ constraints') as [d1| |] eqn:Hnode;
    [|done..].
  rewrite !bind_of_Return.
  rewrite (arc_consistency_any_order s1 s2 d1 constraints constraints');
    [|done|].
  - destruct (arc_consistency s2 d1 constraints') as [d2| |]; [|done..].
    rewrite !bind_of_Return.
    rewrite (recursive_backtracker_ext _ _ _ constraints constraints');
      [done|].
    intros b. by apply all_satisfied_ext.
  - eapply shrinks_NoDup; [by eapply node_consistency_shrinks|].
    apply Forall_forall. intros d (y & -> & _)%list_elem_of_fmap. done.
Qed.

End Behaviour.

(** ** In place *)

Section InPlace.

Context {datetime : Type} `{EqDecision datetime}.
Context {C : Type} `{DateConstraint datetime C}.

Implicit Types (constraints : list C).
Implicit Types (σ : store datetime) (domains : list address).

(** X15. The side effects of the three phases, on domains that are distinct
    set objects: the two filtering passes write those objects only and leave
    in them what the functions on values return; the search writes
    nothing. *)
Theorem phases_in_place sched fuel assignment domains constraints σ :
  allocated domains σ →
  simulates domains σ (node_consistency_st domains constraints σ)
    (ds' ← node_consistency (contents σ domains) constraints;
     Return (ds', ()))
  ∧ simulates domains σ (arc_consistency_st sched domains constraints σ)
      (ds' ← arc_consistency sched (contents σ domains) constraints;
       Return (ds', ()))
  ∧ recursive_backtracker_st fuel assignment domains constraints σ
    = (recursive_backtracker fuel assignment (contents σ domains)
         constraints, σ).
Proof.
  intros Hal. split_and!.
  - by apply node_consistency_agrees.
  - by apply arc_consistency_agrees.
  - apply recursive_backtracker_st_eq.
Qed.

End InPlace.

(** * The claims on the sample constraints *)

Module Examples.

Import Sample.

#[local] Open Scope Z_scope.

(** Meeting 0 before meeting 1. *)
Definition before01 : comparison := Cmp 0 LT (Meeting 1).

(** Meeting 0 is not on date 1. *)
Definition not_on_1 : comparison := Cmp 0 NE (Date 1).

(** The scenarios of the specification, dates numbered from Jan 1 = 1. *)

Example scenario_no_constraint :
  solve first_arc 1 [1; 2; 3] ([] : list comparison) = Return (Some [1]).
Proof. reflexivity. Qed.

Example scenario_ordering :
  arc_consistency first_arc [[1; 2]; [1; 2]] [before01] = Return [[1]; [2]]
  ∧ solve first_arc 2 [1; 2] [before01] = Return (Some [1; 2]).
Proof. split; reflexivity. Qed.

Example scenario_emptied_domain :
  node_consistency [[1]] [not_on_1] = Return [[]]
  ∧ solve first_arc 1 [1] [not_on_1] = Return None.
Proof. split; reflexivity. Qed.

Example scenario_cycle :
  solve first_arc 3 [1; 2; 3]
    [Cmp 0 LT (Meeting 1); Cmp 1 LT (Meeting 2); Cmp 2 LT (Meeting 0)]
  = Return None.
Proof. reflexivity. Qed.

Lemma solve_sound_witness :
  length [1; 2] = 2%nat
  ∧ ∀ c, c ∈ [before01] → is_satisfied_by_assignment c [1; 2] = true.
Proof.
  apply (solve_sound first_arc 2 [1; 2] [before01] [1; 2]).
  vm_compute. reflexivity.
Defined.

(** C2 fails as stated: with one meeting, the constraint "meeting 0 before
    meeting 1" holds of every assignment, yet [solve] raises IndexError
    under every pop order, whatever the recursion limit. *)
Lemma solve_raises_on_unknown_meeting :
  (length [1] = 1%nat ∧ Forall (λ v, v ∈ [1]) [1]
   ∧ all_satisfied [before01] [1] = true)
  ∧ (∀ sched, solve sched 1 [1] [before01] = Raise IndexError)
  ∧ ∀ limit sched,
      solve_within limit sched 1 [1] [before01] = Raise IndexError.
Proof.
  assert (∀ sched, arc_consistency sched [[1]] [before01]
                   = Raise IndexError) as Harc.
  { intros sched. unfold arc_consistency.
    change (build_arcs [before01])
      with (Return [mkArc before01 0%nat 1%nat;
                    mkArc (Cmp 1 GT (Meeting 0)) 1%nat 0%nat]
            : outcome (list (@Arc comparison))).
    rewrite bind_of_Return.
    change (ac3_fuel _ _) with 5%nat. rewrite ac3_loop_cons by (simpl; lia).
    unfold set_pop. simpl length.
    assert (sched 0%nat `mod` 2 < 2)%nat as Hlt
      by (apply Nat.mod_upper_bound; lia).
    destruct (sched 0%nat `mod` 2)%nat as [|[|k]]; [done | done | lia]. }
  split; [|split].
  - split_and!; [done | by repeat constructor | done].
  - intros sched. unfold solve.
    change (node_consistency ((λ _, [1]) <$> seq 0 1) [before01])
      with (Return [[1]] : outcome (list (list Z))).
    by rewrite bind_of_Return, Harc.
  - intros limit sched. unfold solve_within.
    change (node_consistency ((λ _, [1]) <$> seq 0 1) [before01])
      with (Return [[1]] : outcome (list (list Z))).
    by rewrite bind_of_Return, Harc.
Qed.

(** C2 also fails on a deep search: one meeting takes two nested calls of
    the search, and [solve] raises RecursionError when only one fits, though
    [[1]] is a solution; with room for two it returns it. *)
Lemma solve_raises_on_deep_recursion :
  (length [1] = 1%nat ∧ Forall (λ v, v ∈ [1]) [1]
   ∧ all_satisfied ([] : list comparison) [1] = true)
  ∧ ∀ sched,
      solve_within 1 sched 1 [1] ([] : list comparison)
      = Raise RecursionError
      ∧ solve_within 2 sched 1 [1] ([] : list comparison)
        = Return (Some [1]).
Proof.
  split.
  - split_and!; [done | by repeat constructor | done].
  - intros sched. split; reflexivity.
Qed.

Lemma solve_complete_witness :
  ∃ d1 d2 assignment,
    node_consistency ((λ _, [1; 2]) <$> seq 0 2) [before01] = Return d1
    ∧ arc_consistency first_arc d1 [before01] = Return d2
    ∧ holds_solution [1; 2] d1 ∧ holds_solution [1; 2] d2
    ∧ solve_within 3 first_arc 2 [1; 2] [before01] = Return (Some assignment)
    ∧ length assignment = 2%nat
    ∧ (∀ v, v ∈ assignment → v ∈ [1; 2])
    ∧ all_satisfied [before01] assignment = true.
Proof.
  apply (solve_complete 3 first_arc 2 [1; 2] [before01] [1; 2]).
  - compute_done.
  - intros c r ->%list_elem_of_singleton [= <-]. simpl. lia.
  - lia.
  - reflexivity.
  - auto.
  - reflexivity.
Defined.

Lemma arc_consistency_postcondition_witness :
  arc_consistent [[1]; [2]] [before01].
Proof.
  apply (arc_consistency_postcondition first_arc [[1; 2]; [1; 2]]).
  vm_compute. reflexivity.
Defined.

Lemma node_consistency_exact_witness :
  ∃ domains',
    node_consistency [[1; 2]] [not_on_1] = Return domains'
    ∧ length domains' = 1%nat
    ∧ ∀ i domain, [[1; 2]] !! i = Some domain →
        ∃ domain', domains' !! i = Some domain'
          ∧ ∀ v, v ∈ domain' ↔ v ∈ domain ∧ unary_ok [not_on_1] i v.
Proof.
  apply (node_consistency_exact [[1; 2]] [not_on_1]). compute_done.
Defined.

Lemma arc_consistency_idempotent_witness :
  arc_consistency first_arc [[1]; [2]] [before01] = Return [[1]; [2]].
Proof.
  apply (arc_consistency_idempotent first_arc [[1]; [2]] [before01]).
  left. intros c r ->%list_elem_of_singleton _ [= <-]. split.
  - exists [1], [2]. split_and!; [done..|].
    intros v ->%list_elem_of_singleton. exists 2. split; [by left | done].
  - exists [2], [1]. split_and!; [done..|].
    intros v ->%list_elem_of_singleton. exists 1. split; [by left | done].
Defined.

(** Pruning a domain to the empty set is an ordinary return: no date is
    before itself, and [arc_consistency] empties both domains. *)
Lemma filtering_monotone_witness :
  node_consistency [[1]] [not_on_1] = Return [[]]
  ∧ arc_consistency first_arc [[1]; [1]] [before01] = Return [[]; []]
  ∧ ∃ domains',
      arc_consistency first_arc [[1]; [1]] [before01] = Return domains'
      ∧ domains' !! 0%nat = Some [] ∧ domains' !! 1%nat = Some [].
Proof.
  split; [reflexivity|]. split; [reflexivity|].
  destruct (proj2 (proj2 (filtering_monotone first_arc [[1]; [1]]
                            [before01])))
    as (domains' & Hrun & Hempty).
  - compute_done.
  - intros c r ->%list_elem_of_singleton [= <-]. simpl. lia.
  - exists domains'. split; [done|].
    apply (Hempty before01 1%nat [1] [1]); [by left | done..|].
    intros v w ->%list_elem_of_singleton ->%list_elem_of_singleton.
    reflexivity.
Defined.

Lemma backtracker_index_safe_witness :
  ∃ a found,
    recursive_backtracker 3 [] [[1; 2]; [1; 2]] [before01]
    = Return (a, found).
Proof.
  apply (proj1 (backtracker_index_safe [[1; 2]; [1; 2]] [before01])).
Defined.

Lemma solve_st_frame_witness :
  ∃ (addresses : list address) (σ0 : store Z),
    copy_domains 2 0%nat [[1; 2]] = (Return addresses, σ0)
    ∧ length addresses = 2%nat ∧ NoDup addresses
    ∧ (0%nat ∉ addresses)
    ∧ (∀ r, r ∈ addresses → set_at σ0 r = set_at [[1; 2]] 0%nat)
    ∧ ((solve_st first_arc 2 0%nat [before01] [[1; 2]]).1
       = solve first_arc 2 (set_at [[1; 2]] 0%nat) [before01])
    ∧ ∀ r, (r < length [[1; 2]])%nat →
        (solve_st first_arc 2 0%nat [before01] [[1; 2]]).2 !! r
        = [[1; 2]] !! r.
Proof.
  apply (solve_st_frame first_arc 2 0%nat [before01] [[1; 2]]).
  simpl. lia.
Defined.

(** What the copies are for: were the two variables given the same set
    object, pruning date 1 for meeting 0 would prune it for meeting 1 as
    well. *)
Example aliased_domains_prune_together :
  node_consistency_st [0; 0]%nat [not_on_1] [[1; 2]] = (Return (), [[2]])
  ∧ node_consistency [[1; 2]; [1; 2]] [not_on_1] = Return [[2]; [1; 2]].
Proof. split; reflexivity. Qed.

End Examples.

(** * The further properties on the sample constraints *)

Module MoreExamples.

Import Sample.
Import Examples.

#[local] Open Scope Z_scope.

#[local] Ltac membership :=
  repeat match goal with
         | H : _ ∈ _ :: _ |- _ => apply elem_of_cons in H as [->|H]
         | H : _ ∈ [] |- _ => by apply elem_of_nil in H
         end;
  rewrite ?elem_of_cons; tauto.

Lemma arc_consistency_outcome_witness :
  match arc_consistency first_arc [[1]] [before01] with
  | Return _ => constraints_in_range (length [[1]]) [before01]
  | Raise e =>
      e = IndexError ∧ ¬ constraints_in_range (length [[1]]) [before01]
  | OutOfFuel => False
  end.
Proof.
  apply (arc_consistency_outcome first_arc [[1]] [before01]). compute_done.
Defined.


Lemma recursive_backtracker_result_witness :
  [1] `prefix_of` [1; 2]
  ∧ is_complete [1; 2] [[1; 2]; [1; 2]] [before01] = true
  ∧ ∀ i v, (length [1] ≤ i)%nat → [1; 2] !! i = Some v →
      ∃ domain, [[1; 2]; [1; 2]] !! i = Some domain ∧ v ∈ domain.
Proof.
  apply (recursive_backtracker_result 3 [1] [[1; 2]; [1; 2]] [before01]
           [1; 2] true).
  reflexivity.
Defined.

Lemma solve_dates_from_range_witness :
  2 ∈ [1; 2; 3].
Proof.
  apply (solve_dates_from_range first_arc 2 [1; 2; 3] [before01] [1; 2]);
    [reflexivity|].
  rewrite !elem_of_cons. tauto.
Defined.

Lemma solve_None_unsatisfiable_witness :
  solve first_arc 1 [1] [not_on_1] = Return None
  ∧ ¬ ∃ sol, length sol = 1%nat ∧ (∀ v, v ∈ sol → v ∈ [1])
             ∧ all_satisfied [not_on_1] sol = true.
Proof.
  split; [reflexivity|].
  apply (solve_None_unsatisfiable first_arc 1 [1] [not_on_1]). reflexivity.
Defined.

Lemma solve_no_meeting_witness :
  solve first_arc 0 [1; 2] [not_on_1] = Return (Some []).
Proof.
  apply (solve_no_meeting first_arc [1; 2] [not_on_1]).
  intros c ->%list_elem_of_singleton. reflexivity.
Defined.

Lemma solve_empty_range_witness :
  solve first_arc 2 [] [before01] = Return None.
Proof.
  apply (solve_empty_range first_arc 2 [before01]); [lia|].
  intros c r ->%list_elem_of_singleton [= <-]. simpl. lia.
Defined.

Lemma arc_consistency_greatest_witness :
  within [[1]; [2]] [[1]; [2]]
  ∧ within [[1]; [2]] [[1; 2]; [1; 2]]
  ∧ arc_consistent [[1]; [2]] [before01].
Proof.
  apply (arc_consistency_greatest first_arc [[1; 2]; [1; 2]] [before01]
           [[1]; [2]] [[1]; [2]]).
  - reflexivity.
  - split; [reflexivity|]. intros i ei v Hi Hv.
    destruct i as [|[|i]]; simplify_eq/=; eexists; (split; [done|]);
      membership.
  - intros c r ->%list_elem_of_singleton _ [= <-]. split.
    + exists [1], [2]. split_and!; [done..|].
      intros v ->%list_elem_of_singleton. exists 2. split; [by left | done].
    + exists [2], [1]. split_and!; [done..|].
      intros v ->%list_elem_of_singleton. exists 1. split; [by left | done].
Defined.

Lemma node_consistency_idempotent_witness :
  node_consistency [[2]; [1; 2]] [not_on_1] = Return [[2]; [1; 2]].
Proof.
  apply (node_consistency_idempotent [[1; 2]; [1; 2]] [not_on_1]).
  reflexivity.
Defined.

Lemma filtering_reaches_fixpoint_witness :
  node_consistency [[2]; [3]] [before01; not_on_1] = Return [[2]; [3]]
  ∧ arc_consistency first_arc [[2]; [3]] [before01; not_on_1]
    = Return [[2]; [3]].
Proof.
  apply (filtering_reaches_fixpoint first_arc first_arc
           [[1; 2; 3]; [1; 2; 3]] [before01; not_on_1]
           [[2; 3]; [1; 2; 3]] [[2]; [3]]); reflexivity.
Defined.

Lemma remove_inconsistent_values_exact_witness :
  remove_inconsistent_values [[1; 2]; [1; 2]] (mkArc before01 0 1)
  = Return (<[0%nat := filter (λ v, supported before01 v [1; 2] = true)
                              [1; 2]]> [[1; 2]; [1; 2]],
            negb (forallb (λ v, supported before01 v [1; 2]) [1; 2])).
Proof.
  apply (remove_inconsistent_values_exact (mkArc before01 0 1)
           [[1; 2]; [1; 2]] [1; 2] [1; 2]);
    [simpl; lia | compute_done | reflexivity | reflexivity].
Defined.

Lemma backtracker_first_solution_witness :
  [2; 3] = [1; 2]
  ∨ ∃ k x y dates,
      take k [2; 3] = take k [1; 2] ∧ [1; 2] !! k = Some x
      ∧ [2; 3] !! k = Some y
      ∧ [[1; 2; 3]; [1; 2; 3]] !! k = Some dates ∧ tried_first dates x y.
Proof.
  apply (backtracker_first_solution 3 [] [[1; 2; 3]; [1; 2; 3]] [before01]
           [1; 2] [2; 3]).
  - reflexivity.
  - apply prefix_nil.
  - reflexivity.
  - reflexivity.
  - intros i v Hv. destruct i as [|[|i]]; simplify_eq/=;
      eexists; (split; [done|]); membership.
Defined.

Lemma solve_constraint_order_witness :
  solve first_arc 2 [1; 2] [before01; not_on_1; before01]
  = solve first_arc 2 [1; 2] [not_on_1; before01].
Proof.
  apply (solve_constraint_order first_arc first_arc 2 [1; 2]
           [before01; not_on_1; before01] [not_on_1; before01]).
  - intros c. split; intros Hc; membership.
  - compute_done.
Defined.

Lemma phases_in_place_witness :
  simulates [1; 2]%nat [[1; 2]; [1; 2]; [1; 2]]
    (node_consistency_st [1; 2]%nat [before01] [[1; 2]; [1; 2]; [1; 2]])
    (ds' ← node_consistency
             (contents [[1; 2]; [1; 2]; [1; 2]] [1; 2]%nat) [before01];
     Return (ds', ()))
  ∧ simulates [1; 2]%nat [[1; 2]; [1; 2]; [1; 2]]
      (arc_consistency_st first_arc [1; 2]%nat [before01]
         [[1; 2]; [1; 2]; [1; 2]])
      (ds' ← arc_consistency first_arc
               (contents [[1; 2]; [1; 2]; [1; 2]] [1; 2]%nat) [before01];
       Return (ds', ()))
  ∧ recursive_backtracker_st 3 [] [1; 2]%nat [before01]
      [[1; 2]; [1; 2]; [1; 2]]
    = (recursive_backtracker 3 []
         (contents [[1; 2]; [1; 2]; [1; 2]] [1; 2]%nat) [before01],
       [[1; 2]; [1; 2]; [1; 2]]).
Proof.
  apply (phases_in_place first_arc 3 [] [1; 2]%nat [before01]
           [[1; 2]; [1; 2]; [1; 2]]).
  split; [compute_done|].
  intros r [->|[->|[]%elem_of_nil]%elem_of_cons]%elem_of_cons; simpl; lia.
Defined.

End MoreExamples.
